(** * client-github: configuration check, repository mirror, knowledge scan
      and write-back, embedded from the bundled client (environment.ts and
      client.ts).

    The client talks to collaborators that are not part of the repository:
    the settings store of the host runtime, zod, simple-git, glob, the Node
    file system and crypto modules, and the knowledge store of the host.
    Each of them is modelled by the smallest state that the client's own
    control flow can observe; what is assumed of them is written next to
    the model. *)

From Equations Require Import Equations.
From stdpp Require Import gmap strings list fin_maps pretty.
From Stdlib Require Import ZArith Lia Ascii.
From Stdlib.Strings Require Import Byte.

Open Scope string_scope.
Open Scope list_scope.

(* ===================================================================== *)
(** ** Outcomes of awaited calls                                          *)
(* ===================================================================== *)

(** An awaited call either fulfils with a value or rejects with a reason.
    A rejection that nobody catches propagates to the caller. *)
Inductive outcome (E A : Type) : Type :=
| Fulfilled (a : A)
| Rejected (e : E).
Arguments Fulfilled {E A} a.
Arguments Rejected {E A} e.

(** State-and-exception monad: the state survives a rejection, as the
    effects of a JavaScript function that throws half-way do. *)
Definition Eff (W E A : Type) : Type := W → outcome E A * W.

Definition ret {W E A} (a : A) : Eff W E A := λ w, (Fulfilled a, w).
Definition throw {W E A} (e : E) : Eff W E A := λ w, (Rejected e, w).
Definition bind {W E A B} (m : Eff W E A) (k : A → Eff W E B) : Eff W E B :=
  λ w, match m w with
       | (Fulfilled a, w') => k a w'
       | (Rejected e, w') => (Rejected e, w')
       end.
Definition try_catch {W E A} (m : Eff W E A) (h : E → Eff W E A) : Eff W E A :=
  λ w, match m w with
       | (Fulfilled a, w') => (Fulfilled a, w')
       | (Rejected e, w') => h e w'
       end.

Declare Scope eff_scope.
Delimit Scope eff_scope with eff.
Notation "'await' x ← m ; k" := (bind m (λ x, k))
  (at level 100, x name, m at next level, k at level 200,
   right associativity) : eff_scope.
Notation "'await_' m ; k" := (bind m (λ _, k))
  (at level 100, m at next level, k at level 200,
   right associativity) : eff_scope.

(* ===================================================================== *)
(** ** environment.ts: githubEnvSchema and validateGithubConfig           *)
(* ===================================================================== *)

Module Environment.

(** [runtime.getSetting(key)]: a string, or nothing (null/undefined). *)
Definition Settings := string → option string.

(** The two ways a [z.string().min(1, message)] field can fail: the value
    is not a string at all, or it is a string shorter than one character,
    in which case zod reports the message given to [min]. *)
Inductive issue_kind :=
| invalid_type
| too_small (message : string).

Record issue := { issue_path : string; issue_what : issue_kind }.

(** [z.string().min(1, message)] applied to the value found under [key]. *)
Definition string_min1 (key message : string) (v : option string)
  : list issue :=
  match v with
  | None => [ {| issue_path := key; issue_what := invalid_type |} ]
  | Some s =>
      if (String.length s <? 1)%nat
      then [ {| issue_path := key; issue_what := too_small message |} ]
      else []
  end.

Record GithubConfig := {
  GITHUB_OWNER : string;
  GITHUB_REPO : string;
  GITHUB_BRANCH : string;
  GITHUB_PATH : string;
  GITHUB_API_TOKEN : string
}.

(** The object handed to [githubEnvSchema.parse]. *)
Record RawConfig := {
  raw_owner : option string;
  raw_repo : option string;
  raw_branch : option string;
  raw_path : option string;
  raw_token : option string
}.

(** [githubEnvSchema]: five fields, each [z.string().min(1, ...)]; zod
    checks every field and collects the issues in field order. *)
Definition githubEnvSchema_issues (c : RawConfig) : list issue :=
  string_min1 "GITHUB_OWNER" "GitHub owner is required" (raw_owner c)
  ++ string_min1 "GITHUB_REPO" "GitHub repo is required" (raw_repo c)
  ++ string_min1 "GITHUB_BRANCH" "GitHub branch is required" (raw_branch c)
  ++ string_min1 "GITHUB_PATH" "GitHub path is required" (raw_path c)
  ++ string_min1 "GITHUB_API_TOKEN" "GitHub API token is required"
       (raw_token c).

(** [githubEnvSchema.parse]: the parsed object when there is no issue,
    the ZodError carrying the issues otherwise. *)
Definition githubEnvSchema_parse (c : RawConfig)
  : outcome (list issue) GithubConfig :=
  match githubEnvSchema_issues c with
  | [] =>
      match raw_owner c, raw_repo c, raw_branch c, raw_path c, raw_token c
      with
      | Some o, Some r, Some b, Some p, Some t =>
          Fulfilled {| GITHUB_OWNER := o; GITHUB_REPO := r;
                       GITHUB_BRANCH := b; GITHUB_PATH := p;
                       GITHUB_API_TOKEN := t |}
      | _, _, _, _, _ => Rejected []
      end
  | issues => Rejected issues
  end.

(** The Error thrown by [validateGithubConfig]; its message is the fixed
    header followed by one line per issue. *)
Record ValidationError := { validation_issues : list issue }.

Definition validateGithubConfig (runtime : Settings)
  : outcome ValidationError GithubConfig :=
  let config :=
    {| raw_owner := runtime "GITHUB_OWNER";
       raw_repo := runtime "GITHUB_REPO";
       raw_branch := runtime "GITHUB_BRANCH";
       raw_path := runtime "GITHUB_PATH";
       raw_token := runtime "GITHUB_API_TOKEN" |} in
  match githubEnvSchema_parse config with
  | Fulfilled parsed => Fulfilled parsed
  | Rejected issues => Rejected {| validation_issues := issues |}
  end.

(** A setting that is present and has at least one character. *)
Definition non_empty (v : option string) : Prop :=
  ∃ s, v = Some s ∧ s ≠ "".

Definition accepted (runtime : Settings) : Prop :=
  ∃ c, validateGithubConfig runtime = Fulfilled c.

Definition rejected (runtime : Settings) : Prop :=
  ∃ e, validateGithubConfig runtime = Rejected e.

(** The five settings, all present and non-empty. *)
Definition all_five (runtime : Settings) : Prop :=
  non_empty (runtime "GITHUB_OWNER")
  ∧ non_empty (runtime "GITHUB_REPO")
  ∧ non_empty (runtime "GITHUB_BRANCH")
  ∧ non_empty (runtime "GITHUB_PATH")
  ∧ non_empty (runtime "GITHUB_API_TOKEN").

(** Settings given by their five values. *)
Definition settings_of (o r b p t : option string) : Settings :=
  λ key,
    if String.eqb key "GITHUB_OWNER" then o
    else if String.eqb key "GITHUB_REPO" then r
    else if String.eqb key "GITHUB_BRANCH" then b
    else if String.eqb key "GITHUB_PATH" then p
    else if String.eqb key "GITHUB_API_TOKEN" then t
    else None.

End Environment.

(* ===================================================================== *)
(** ** client.ts: the local mirror (constructor, initialize,
       cloneRepository)                                                   *)
(* ===================================================================== *)

Module Mirror.

(** [this.config], read from the settings by the constructor. *)
Record Config := {
  owner : string;
  repo : string;
  branch : string;
  path : string;
  token : string
}.

(** [path.join] on segments that are already normalised. *)
Definition path_join (a b : string) : string := a +:+ "/" +:+ b.

(** [this.repoPath = path.join(process.cwd(), ".repos", owner, repo)]. *)
Definition repoPath (cwd : string) (config : Config) : string :=
  path_join (path_join (path_join cwd ".repos") (owner config))
    (repo config).

(** What exists on disk below [cwd/.repos]: the mirror directory lies
    inside the owner directory, so one of three situations holds. *)
Inductive disk :=
| NoOwnerDir
| OwnerDirOnly
| MirrorPresent.

(** Calls that leave the process, in the order they were made. *)
Inductive event :=
| Mkdir (dir : string)
| Clone (url dest : string)
| Pull (dir : string)
| Checkout (dir branch : string)
| LoggerLog (message : string)
| LoggerError (message : string).

Inductive error :=
| MkdirFailed (dir : string)
| GitFailed (what : event)
| Error (message : string).

(** What the outside decides: whether the owner directory can be created
    when it is absent, whether the k-th clone attempt (counted from 0)
    succeeds, whether the pull succeeds, which branches can be checked
    out. *)
Record Remote := {
  mkdir_ok : bool;
  clone_ok : nat → bool;
  pull_ok : bool;
  checkout_ok : string → bool
}.

Record World := {
  on_disk : disk;
  events : list event
}.

Definition is_clone (e : event) : bool :=
  match e with Clone _ _ => true | _ => false end.
Definition is_pull (e : event) : bool :=
  match e with Pull _ => true | _ => false end.

(** Number of clone attempts and of pulls made so far. *)
Definition clone_attempts (w : World) : nat :=
  length (List.filter is_clone (events w)).
Definition pulls (w : World) : nat :=
  length (List.filter is_pull (events w)).

Definition record (e : event) (w : World) : World :=
  {| on_disk := on_disk w; events := events w ++ [e] |}.

Definition M := Eff World error.

Section WithRemote.
Context (cwd : string) (config : Config) (remote : Remote).

(** [fs.mkdir(dir, { recursive: true })]: nothing to do, and no error,
    when the directory is there already. *)
Definition fs_mkdir (dir : string) : M unit := λ w,
  let w' := record (Mkdir dir) w in
  match on_disk w with
  | NoOwnerDir =>
      if mkdir_ok remote
      then (Fulfilled (), {| on_disk := OwnerDirOnly; events := events w' |})
      else (Rejected (MkdirFailed dir), w')
  | _ => (Fulfilled (), w')
  end.

(** [existsSync(this.repoPath)]. *)
Definition existsSync_repoPath : M bool := λ w,
  (Fulfilled (match on_disk w with MirrorPresent => true | _ => false end),
   w).

(** [git.clone(url, dest)]: the attempt is counted, and its outcome is
    the remote's answer for that attempt. *)
Definition git_clone (url dest : string) : M unit := λ w,
  let w' := record (Clone url dest) w in
  if clone_ok remote (clone_attempts w)
  then (Fulfilled (), {| on_disk := MirrorPresent; events := events w' |})
  else (Rejected (GitFailed (Clone url dest)), w').

Definition git_pull (dir : string) : M unit := λ w,
  let w' := record (Pull dir) w in
  if pull_ok remote then (Fulfilled (), w')
  else (Rejected (GitFailed (Pull dir)), w').

Definition git_checkout (dir b : string) : M unit := λ w,
  let w' := record (Checkout dir b) w in
  if checkout_ok remote b then (Fulfilled (), w')
  else (Rejected (GitFailed (Checkout dir b)), w').

Definition elizaLogger_log (message : string) : M unit := λ w,
  (Fulfilled (), record (LoggerLog message) w).
Definition elizaLogger_error (message : string) : M unit := λ w,
  (Fulfilled (), record (LoggerError message) w).

Definition repositoryUrl : string :=
  "https://github.com/" +:+ owner config +:+ "/" +:+ repo config
    +:+ ".git".

Definition maxRetries : nat := 3.

(** The [while (retries < maxRetries)] loop of [cloneRepository], from
    the value [retries] has at the top of an iteration. The distance to
    [maxRetries] shrinks with every iteration that does not leave the
    function. *)
Equations? cloneRepository_from (retries : nat) : M unit
  by wf (maxRetries - retries) lt :=
  cloneRepository_from retries with decide (retries < maxRetries) => {
    | right _ => ret ()
    | left _ =>
        try_catch
          (await_ git_clone repositoryUrl (repoPath cwd config);
           await_ elizaLogger_log
             ("Successfully cloned repository from " +:+ repositoryUrl);
           ret ())%eff
          (λ _,
             await_ elizaLogger_error
               ("Failed to clone repository from " +:+ repositoryUrl
                  +:+ ". Retrying...");
             match decide (S retries = maxRetries) with
             | left _ =>
                 throw (Error
                   ("Unable to clone repository from " +:+ repositoryUrl
                      +:+ " after " +:+ pretty maxRetries
                      +:+ " retries."))
             | right _ => cloneRepository_from (S retries)
             end)%eff
  }.
Proof. lia. Qed.

Definition cloneRepository : M unit := cloneRepository_from 0.

Definition initialize : M unit :=
  (await_ fs_mkdir (path_join (path_join cwd ".repos") (owner config));
   await present ← existsSync_repoPath;
   await_ (if negb present then cloneRepository
           else git_pull (repoPath cwd config));
   if bool_decide (branch config ≠ "")
   then git_checkout (repoPath cwd config) (branch config)
   else ret ())%eff.

(** The world after one clone attempt that failed and was logged. *)
Definition after_failure (w : World) : World :=
  record (LoggerError ("Failed to clone repository from "
                         +:+ repositoryUrl +:+ ". Retrying..."))
    (record (Clone (repositoryUrl) (repoPath cwd config)) w).

(** The world after a clone attempt that succeeded and was logged. *)
Definition after_success (w : World) : World :=
  record (LoggerLog ("Successfully cloned repository from "
                       +:+ repositoryUrl))
    {| on_disk := MirrorPresent;
       events := events (record (Clone (repositoryUrl)
                                   (repoPath cwd config)) w) |}.

Definition exhausted : error :=
  Error ("Unable to clone repository from " +:+ repositoryUrl
           +:+ " after 3 retries.").

(** The owner directory is there, or can be created. *)
Definition mkdir_passes (w : World) : Prop :=
  on_disk w = NoOwnerDir → mkdir_ok remote = true.

(** The part of [initialize] that follows the directory creation. *)
Definition then_checkout (r : outcome error unit * World)
  : outcome error unit * World :=
  match r with
  | (Fulfilled _, w') =>
      if bool_decide (branch config ≠ "")
      then git_checkout (repoPath cwd config) (branch config) w'
      else (Fulfilled (), w')
  | (Rejected e, w') => (Rejected e, w')
  end.

End WithRemote.

(** Example data: remotes that refuse the first two clone attempts, that
    refuse every clone attempt, and that refuse to be pulled from; a
    machine without any mirror and one with the mirror in place. *)
Definition refusing_twice : Remote :=
  {| mkdir_ok := true; clone_ok := λ k, Nat.leb 2 k;
     pull_ok := true; checkout_ok := λ _, true |}.

Definition refusing_always : Remote :=
  {| mkdir_ok := true; clone_ok := λ _, false;
     pull_ok := true; checkout_ok := λ _, true |}.

Definition refusing_pull : Remote :=
  {| mkdir_ok := true; clone_ok := λ _, true;
     pull_ok := false; checkout_ok := λ _, true |}.

Definition blank_disk : World := {| on_disk := NoOwnerDir; events := [] |}.

Definition mirrored_disk : World :=
  {| on_disk := MirrorPresent; events := [] |}.

Definition acme : Config :=
  {| owner := "acme"; repo := "docs"; branch := "main"; path := "guides";
     token := "secret" |}.

End Mirror.

(* ===================================================================== *)
(** ** Text read from disk: [fs.readFile(file, "utf-8")] and the bytes
       that [createHash("sha256").update(content)] digests                *)
(* ===================================================================== *)

Module Utf8.

Open Scope Z_scope.

Definition byte_to_Z (b : byte) : Z := Z.of_N (Byte.to_N b).
Definition byte_of_Z (z : Z) : byte :=
  match Byte.of_N (Z.to_N z) with
  | Some b => b
  | None => x00
  end.

(** A decoded text is the sequence of its code points. Decoding never
    produces a surrogate, so this determines the JavaScript string. *)
Definition text := list Z.

Definition replacement : Z := 0xFFFD.

(** Decoder state between two bytes: the code point collected so far, the
    number of continuation bytes still expected, and the range the next
    continuation byte must lie in. *)
Record state := {
  cp : Z;
  need : nat;
  lo : Z;
  hi : Z
}.

Definition idle : state := {| cp := 0; need := 0; lo := 0x80; hi := 0xBF |}.

Definition within (a b x : Z) : bool := (a <=? x) && (x <=? b).

(** A byte met while no sequence is open. The lead bytes C0, C1 and
    F5..FF, and a stray continuation byte, are ill-formed on their own. *)
Definition lead (b : Z) : list Z * state :=
  if b <=? 0x7F then ([b], idle)
  else if within 0xC2 0xDF b then
    ([], {| cp := Z.land b 0x1F; need := 1; lo := 0x80; hi := 0xBF |})
  else if within 0xE0 0xEF b then
    ([], {| cp := Z.land b 0xF; need := 2;
            lo := if b =? 0xE0 then 0xA0 else 0x80;
            hi := if b =? 0xED then 0x9F else 0xBF |})
  else if within 0xF0 0xF4 b then
    ([], {| cp := Z.land b 0x7; need := 3;
            lo := if b =? 0xF0 then 0x90 else 0x80;
            hi := if b =? 0xF4 then 0x8F else 0xBF |})
  else ([replacement], idle).

(** One byte. A byte that cannot continue the open sequence closes it
    with one U+FFFD and is then looked at afresh. *)
Definition step (st : state) (b : Z) : list Z * state :=
  match need st with
  | O => lead b
  | S n =>
      if within (lo st) (hi st) b then
        let c := Z.lor (Z.shiftl (cp st) 6) (Z.land b 0x3F) in
        match n with
        | O => ([c], idle)
        | S _ => ([], {| cp := c; need := n; lo := 0x80; hi := 0xBF |})
        end
      else
        let '(out, st') := lead b in (replacement :: out, st')
  end.

(** The rest of the input; a sequence still open at the end of the input
    gives one U+FFFD. *)
Fixpoint decode_from (st : state) (bs : list byte) : text :=
  match bs with
  | [] => match need st with O => [] | S _ => [replacement] end
  | b :: bs' =>
      let '(out, st') := step st (byte_to_Z b) in
      (out ++ decode_from st' bs')%list
  end.

Definition decode (bs : list byte) : text := decode_from idle bs.

Definition encode_cp (c : Z) : list byte :=
  if c <? 0x80 then [byte_of_Z c]
  else if c <? 0x800 then
    [byte_of_Z (Z.lor 0xC0 (Z.shiftr c 6));
     byte_of_Z (Z.lor 0x80 (Z.land c 0x3F))]
  else if c <? 0x10000 then
    [byte_of_Z (Z.lor 0xE0 (Z.shiftr c 12));
     byte_of_Z (Z.lor 0x80 (Z.land (Z.shiftr c 6) 0x3F));
     byte_of_Z (Z.lor 0x80 (Z.land c 0x3F))]
  else
    [byte_of_Z (Z.lor 0xF0 (Z.shiftr c 18));
     byte_of_Z (Z.lor 0x80 (Z.land (Z.shiftr c 12) 0x3F));
     byte_of_Z (Z.lor 0x80 (Z.land (Z.shiftr c 6) 0x3F));
     byte_of_Z (Z.lor 0x80 (Z.land c 0x3F))].

Definition encode (t : text) : list byte := flat_map encode_cp t.

(** Unicode scalar values: the code points that are not surrogates. *)
Definition scalar (c : Z) : Prop :=
  0 ≤ c < 0xD800 ∨ 0xE000 ≤ c ≤ 0x10FFFF.

(** A file is well-formed UTF-8 when it is the encoding of some text. *)
Definition well_formed (bs : list byte) : Prop :=
  ∃ t, Forall scalar t ∧ bs = encode t.

(** Every way of supplying the [n] continuation bytes that are still
    expected, the first of them within [lo..hi], ends in a scalar
    value. *)
Fixpoint completes (n : nat) (c lo hi : Z) : Prop :=
  match n with
  | O => scalar c
  | S n' =>
      ∀ b, lo ≤ b ≤ hi → completes n' (c * 64 + (b - 0x80)) 0x80 0xBF
  end.

Definition sound (st : state) : Prop :=
  0 ≤ cp st ∧ 0x80 ≤ lo st ∧ hi st ≤ 0xBF
  ∧ (need st ≠ O → completes (need st) (cp st) (lo st) (hi st)).

#[global] Instance byte_eq_decision : EqDecision byte := Byte.byte_eq_dec.

End Utf8.

(* ===================================================================== *)
(** ** The mirror's working tree and [glob(pattern, { nodir: true })]     *)
(* ===================================================================== *)

Module Tree.

(** A working tree of directories and regular files (no symbolic links).
    A file whose bytes cannot be read has no data. *)
#[local] Unset Elimination Schemes.
Inductive node :=
| File (data : option (list byte))
| Dir (entries : list (string * node)).
#[local] Set Elimination Schemes.

(** A path below the mirror root, as its list of names. *)
Definition fpath := list string.

(** The entry called [name] in a directory listing. *)
Fixpoint entry (name : string) (es : list (string * node)) : option node :=
  match es with
  | [] => None
  | (n, c) :: es' => if String.eqb n name then Some c else entry name es'
  end.

(** The node a path leads to. *)
Fixpoint resolve (n : node) (p : fpath) : option node :=
  match p with
  | [] => Some n
  | name :: p' =>
      match n with
      | Dir es =>
          match entry name es with
          | Some c => resolve c p'
          | None => None
          end
      | File _ => None
      end
  end.

(** Names that begin with a dot. With the default [dot: false], neither
    [*] nor [**] matches such a name. *)
Definition dot_name (name : string) : bool :=
  match name with
  | String c _ => Ascii.eqb c "."%char
  | EmptyString => false
  end.

(** What [**/*] with [nodir: true] matches below a node, as paths
    relative to that node: every non-directory that can be reached
    through names without a leading dot. (A file matches with the empty
    relative path when it is reached from its directory.) *)
Fixpoint matches (n : node) : list fpath :=
  match n with
  | File _ => [[]]
  | Dir es =>
      flat_map
        (λ e, if dot_name (fst e) then []
              else map (cons (fst e)) (matches (snd e)))
        es
  end.

(** [glob(path.join(root, "**/*"), { nodir: true })] for a [root] that
    is [plain] and stays inside the mirror: the pattern needs at least
    one name below the root, so a root that is missing or is a file
    matches nothing. The result is given relative to the mirror. *)
Definition glob (mirror : node) (root : fpath) : list fpath :=
  match resolve mirror root with
  | Some (Dir es) => map (app root) (matches (Dir es))
  | _ => []
  end.

(** Splitting a path at its slashes. *)
Fixpoint split_slash (acc : string) (s : string) : list string :=
  match s with
  | EmptyString => [String.rev acc]
  | String c s' =>
      if Ascii.eqb c "/"%char then String.rev acc :: split_slash "" s'
      else split_slash (String c acc) s'
  end.

(** What [path.join] makes of the segments of a relative path: empty
    names and [.] disappear, and [..] takes back the name before it. A
    [..] with no name before it is kept: such a path climbs out of the
    directory it is joined to. [above] holds the names kept so far, the
    last one first. *)
Fixpoint normalize (above : list string) (segments : list string)
  : list string :=
  match segments with
  | [] => rev above
  | s :: rest =>
      if decide (s = "" ∨ s = ".") then normalize above rest
      else if decide (s = "..") then
        match above with
        | [] => normalize [s] rest
        | top :: above' =>
            if decide (top = "..") then normalize (s :: above) rest
            else normalize above' rest
        end
      else normalize (s :: above) rest
  end.

(** The names of a relative path after [path.join] has normalised it. *)
Definition names (s : string) : fpath :=
  normalize [] (split_slash "" s).

(** The characters that glob gives a meaning of their own in a pattern:
    wildcards, character classes, braces, the extglob operators and the
    escape character. *)
Definition glob_magic (c : ascii) : bool :=
  existsb (Ascii.eqb c)
    (String.list_ascii_of_string "\*?[]{}()!+@").

(** A string without such characters: as part of a pattern it matches
    itself and nothing else. The listing that [glob] gives is the one
    of a pattern whose part before [**/*] is plain. *)
Definition plain (s : string) : bool :=
  forallb (λ c, negb (glob_magic c)) (String.list_ascii_of_string s).

(** [path.relative(this.repoPath, file)] for a file below the mirror. *)
Definition relative (file : fpath) : string := String.concat "/" file.

(** Every directory lists a name at most once. *)
Fixpoint well_formed (n : node) : Prop :=
  match n with
  | File _ => True
  | Dir es =>
      NoDup (map fst es)
      ∧ fold_right (λ e rest, well_formed (snd e) ∧ rest) True es
  end.

(** The path leads to a regular file. *)
Definition is_file (mirror : node) (p : fpath) : Prop :=
  ∃ data, resolve mirror p = Some (File data).

(** No name of the path begins with a dot. *)
Definition undotted (p : fpath) : Prop :=
  Forall (λ name, dot_name name = false) p.

End Tree.

(* ===================================================================== *)
(** ** client.ts: createMemoriesFromFiles                                 *)
(* ===================================================================== *)

Module Knowledge.

Import Mirror Tree.

Record Metadata := {
  meta_path : string;
  meta_repo : string;
  meta_owner : string
}.

(** The [content] object of a stored memory. Records written by other
    clients need not carry a [hash] or [metadata]. *)
Record Content := {
  text : Utf8.text;
  hash : option string;
  source : string;
  attachments : list string;
  metadata : option Metadata
}.

Record KnowledgeItem := {
  id : string;
  content : Content
}.

(** The collaborators of the scan. [sha256_hex bytes] stands for
    [createHash("sha256").update(bytes).digest("hex")], [stringToUuid]
    for the host's identifier function, [Store] for whatever lies behind
    [runtime.documentsManager] and [knowledge]. Lookups and sets answer:
    a store that fails a call is not part of this model, so what is
    proved about the scan is about scans during which the store
    answers. *)
Class Host := {
  sha256_hex : list byte → string;
  stringToUuid : string → string;
  character_name : string;
  Store : Type;
  getMemoryById : Store → string → option KnowledgeItem;
  knowledge_set : Store → KnowledgeItem → Store
}.

(** What the scan expects of its sink: the store is keyed by
    identifier, a record that was set is the one found under its
    identifier afterwards, and the records under other identifiers stay
    as they were. *)
Class KeyedStore (H : Host) : Prop := {
  get_set_same : ∀ s item,
    getMemoryById (knowledge_set s item) (id item) = Some item;
  get_set_other : ∀ s item k,
    k ≠ id item →
    getMemoryById (knowledge_set s item) k = getMemoryById s k
}.

(** The store as the host implements it: [knowledge.set] creates its
    record through [createMemory], which returns without writing when a
    record with the same identifier exists. A record is therefore
    written once and never replaced; the records under other
    identifiers stay as they were. *)
Class KeepingStore (H : Host) : Prop := {
  get_set_kept : ∀ s item k,
    is_Some (getMemoryById s k) →
    getMemoryById (knowledge_set s item) k = getMemoryById s k;
  get_set_created : ∀ s item,
    getMemoryById s (id item) = None →
    getMemoryById (knowledge_set s item) (id item) = Some item;
  get_set_apart : ∀ s item k,
    k ≠ id item →
    getMemoryById (knowledge_set s item) k = getMemoryById s k
}.

Inductive error :=
| ReadFailed (file : fpath).

Section WithHost.
Context {H : Host}.

Record Scan := {
  store : Store;
  upserts : list KnowledgeItem;
  console : list (list string)
}.

Definition M := Eff Scan error.

Definition console_log (args : list string) : M unit := λ st,
  (Fulfilled (),
   {| store := store st; upserts := upserts st;
      console := console st ++ [args] |}).

(** [fs.readFile(file, "utf-8")]: the decoded text of a readable
    regular file; anything else rejects. *)
Definition fs_readFile (mirror : node) (file : fpath) : M Utf8.text :=
  match resolve mirror file with
  | Some (File (Some bytes)) => ret (Utf8.decode bytes)
  | _ => throw (ReadFailed file)
  end.

(** [createHash("sha256").update(content).digest("hex")]: a string is
    digested through its UTF-8 encoding. *)
Definition contentHash_of (content : Utf8.text) : string :=
  sha256_hex (Utf8.encode content).

(** The string handed to [stringToUuid]. *)
Definition knowledgeKey (config : Config) (relativePath : string)
  : string :=
  "github-" +:+ owner config +:+ "-" +:+ repo config +:+ "-"
    +:+ relativePath.

Definition knowledgeId_of (config : Config) (relativePath : string)
  : string :=
  stringToUuid (knowledgeKey config relativePath).

Definition documents_getMemoryById (knowledgeId : string)
  : M (option KnowledgeItem) := λ st,
  (Fulfilled (getMemoryById (store st) knowledgeId), st).

Definition knowledge_set_call (item : KnowledgeItem) : M unit := λ st,
  (Fulfilled (),
   {| store := knowledge_set (store st) item;
      upserts := upserts st ++ [item];
      console := console st |}).

(** [existingDocument && existingDocument.content["hash"] == contentHash] *)
Definition up_to_date (existingDocument : option KnowledgeItem)
    (contentHash : string) : bool :=
  match existingDocument with
  | Some doc => bool_decide (hash (content doc) = Some contentHash)
  | None => false
  end.

(** The body of the [for (const file of files)] loop. *)
Definition process_file (config : Config) (mirror : node) (file : fpath)
  : M unit :=
  (let relativePath := relative file in
   await content ← fs_readFile mirror file;
   let contentHash := contentHash_of content in
   let knowledgeId := knowledgeId_of config relativePath in
   await existingDocument ← documents_getMemoryById knowledgeId;
   if up_to_date existingDocument contentHash then ret ()
   else
     await_ console_log
       ["Processing knowledge for "; character_name; " - "; relativePath];
     knowledge_set_call
       {| id := knowledgeId;
          content :=
            {| text := content;
               hash := Some contentHash;
               source := "github";
               attachments := [];
               metadata :=
                 Some {| meta_path := relativePath;
                         meta_repo := repo config;
                         meta_owner := owner config |} |} |})%eff.

Fixpoint process_files (config : Config) (mirror : node)
    (files : list fpath) : M unit :=
  match files with
  | [] => ret ()
  | file :: rest =>
      (await_ process_file config mirror file;
       process_files config mirror rest)%eff
  end.

(** The files the scan lists: below [path] when it is set, below the
    mirror root otherwise. The path is spliced into the pattern, so the
    listing is the code's for a path that is [plain] and stays inside
    the mirror. *)
Definition scanned_files (config : Config) (mirror : node)
  : list fpath :=
  if bool_decide (path config ≠ "")
  then glob mirror (names (path config))
  else glob mirror [].

(** The directory the pattern is anchored at. *)
Definition scan_root (config : Config) : fpath :=
  if bool_decide (path config ≠ "") then names (path config) else [].

Definition createMemoriesFromFiles (config : Config) (mirror : node)
  : M unit :=
  (await_ console_log ["Create memories"];
   process_files config mirror (scanned_files config mirror))%eff.

(** The fingerprint a file with the given bytes is stored with. *)
Definition fingerprint (bytes : list byte) : string :=
  contentHash_of (Utf8.decode bytes).

(** The fingerprint as the specification words it: the digest of the
    file's raw bytes. *)
Definition spec_fingerprint (bytes : list byte) : string :=
  sha256_hex bytes.

(** The fingerprint the scan computes for a listed file, when it can
    be read. *)
Definition fresh_hash (mirror : node) (file : fpath) : option string :=
  match resolve mirror file with
  | Some (File (Some bytes)) => Some (fingerprint bytes)
  | _ => None
  end.

Definition readable (mirror : node) (file : fpath) : Prop :=
  is_Some (fresh_hash mirror file).

Definition file_id (config : Config) (file : fpath) : string :=
  knowledgeId_of config (relative file).

(** The fingerprint stored under an identifier, if any. *)
Definition stored_hash (s : Store) (k : string) : option string :=
  match getMemoryById s k with
  | Some doc => hash (content doc)
  | None => None
  end.

(** A listed file is new or changed with respect to a store. *)
Definition stale (config : Config) (mirror : node) (s : Store)
    (file : fpath) : Prop :=
  stored_hash s (file_id config file) ≠ fresh_hash mirror file.

(** A listed file whose record is in the store with another fingerprint
    than the fresh one: the file changed since its record was written. *)
Definition outdated (config : Config) (mirror : node) (s : Store)
    (file : fpath) : Prop :=
  is_Some (getMemoryById s (file_id config file))
  ∧ stale config mirror s file.

(** Files that share an identifier also share their fingerprint. *)
Definition consistent_ids (config : Config) (mirror : node)
    (files : list fpath) : Prop :=
  ∀ f g, f ∈ files → g ∈ files →
    file_id config f = file_id config g →
    fresh_hash mirror f = fresh_hash mirror g.

Definition fresh (s : Store) : Scan :=
  {| store := s; upserts := []; console := [] |}.

(** Two different messages with one digest. *)
Definition digest_collision (x y : list byte) : Prop :=
  x ≠ y ∧ sha256_hex x = sha256_hex y.

#[export] Instance stale_dec config mirror s file :
  Decision (stale config mirror s file).
Proof. unfold stale. apply _. Defined.

#[export] Instance outdated_dec config mirror s file :
  Decision (outdated config mirror s file).
Proof. unfold outdated. apply _. Defined.

(** The record the scan writes for a file with the given bytes. *)
Definition item_of (config : Config) (file : fpath) (bytes : list byte)
  : KnowledgeItem :=
  {| id := file_id config file;
     content :=
       {| text := Utf8.decode bytes;
          hash := Some (fingerprint bytes);
          source := "github";
          attachments := [];
          metadata :=
            Some {| meta_path := relative file;
                    meta_repo := repo config;
                    meta_owner := owner config |} |} |}.

(** The scan state after that record has been announced and set. *)
Definition upserted (config : Config) (file : fpath) (bytes : list byte)
    (st : Scan) : Scan :=
  {| store := knowledge_set (store st) (item_of config file bytes);
     upserts := upserts st ++ [item_of config file bytes];
     console :=
       console st
         ++ [["Processing knowledge for "; character_name; " - ";
              relative file]] |}.

(** The scan state right after the opening [console.log]. *)
Definition started (st : Scan) : Scan :=
  {| store := store st; upserts := upserts st;
     console := console st ++ [["Create memories"]] |}.

End WithHost.

(** A store kept as a finite map from identifiers to records, with
    digests and identifiers left symbolic (the message and the key
    themselves). *)
Definition symbolic_digest (bytes : list byte) : string :=
  String.string_of_list_ascii
    (map (λ b, ascii_of_N (Byte.to_N b)) bytes).

Definition map_host : Host := {|
  sha256_hex := symbolic_digest;
  stringToUuid := λ s, s;
  character_name := "agent";
  Store := gmap string KnowledgeItem;
  getMemoryById := λ s k, s !! k;
  knowledge_set := λ s item, <[id item := item]> s
|}.

(** The same store with [knowledge.set] as the host has it: a record
    is created when its identifier is free and left alone when it is
    taken. *)
Definition keeping_host : Host := {|
  sha256_hex := symbolic_digest;
  stringToUuid := λ s, s;
  character_name := "agent";
  Store := gmap string KnowledgeItem;
  getMemoryById := λ s k, s !! k;
  knowledge_set := λ s item,
    match s !! id item with
    | Some _ => s
    | None => <[id item := item]> s
    end
|}.

(** Example data: the configuration of the documentation mirror, and a
    mirror whose first listed file cannot be read. *)
Definition acme_docs : Config := acme.

Definition acme_docs_at_root : Config :=
  {| owner := "acme"; repo := "docs"; branch := "main"; path := "";
     token := "secret" |}.

(** The same mirror with a path filter that goes a roundabout way to
    [guides]. *)
Definition acme_docs_roundabout : Config :=
  {| owner := "acme"; repo := "docs"; branch := "main";
     path := "manuals/../guides/./"; token := "secret" |}.

Definition bytes_of (s : string) : list byte :=
  String.list_byte_of_string s.

Definition mirror_with_dotfiles : node :=
  Dir [(".git", Dir [("HEAD", File (Some (bytes_of "ref: refs/heads/main")))]);
       ("guides",
        Dir [("a.md", File (Some (bytes_of "alpha")));
             (".draft.md", File (Some (bytes_of "draft")));
             (".assets", Dir [("logo.svg", File (Some (bytes_of "<svg/>")))])
            ])].

(** The documentation mirror after [guides/a.md] was changed and
    [guides/c.md] was added, and the store as the previous scan left it:
    records for [a.md] (with the fingerprint of its old text) and for
    [b.md]. *)
Definition mirror_after_update : node :=
  Dir [("guides",
        Dir [("a.md", File (Some (bytes_of "alpha, revised")));
             ("b.md", File (Some (bytes_of "beta")));
             ("c.md", File (Some (bytes_of "gamma")))])].

Definition store_before_update : Store (Host := map_host) :=
  let a := item_of (H := map_host) acme_docs ["guides"; "a.md"]
             (bytes_of "alpha") in
  let b := item_of (H := map_host) acme_docs ["guides"; "b.md"]
             (bytes_of "beta") in
  <[id a := a]> (<[id b := b]> ∅).

Definition mirror_with_unreadable : node :=
  Dir [("guides",
        Dir [("a.md", File None);
             ("b.md", File (Some (bytes_of "beta")))])].

End Knowledge.

(* ===================================================================== *)
(** ** client.ts: createPullRequest and createCommit                      *)
(* ===================================================================== *)

Module WriteBack.

Import Mirror.

(** One element of [files]: [{ path, content }]. Paths are relative to
    the mirror and normalised, so a path names one file. *)
Record FileEdit := {
  file_path : string;
  file_content : string
}.

Record Commit := {
  message : string;
  snapshot : gmap string string
}.

(** The argument of [octokit.pulls.create]. *)
Record PullsCreate := {
  pr_owner : string;
  pr_repo : string;
  pr_title : string;
  pr_body : string;
  pr_head : string;
  pr_base : string
}.

(** [pr.data]. *)
Record PullData := {
  pr_number : nat;
  pr_html_url : string
}.

Inductive event :=
| Pushed (remote : option (string * string)) (branch : string)
    (history : list Commit)
| PullRequested (request : PullsCreate).

(** The mirror as the file system and git see it: the files of the
    working tree, the index (the tracked files as staged), the branch
    that is checked out, the commits of every local branch (newest
    first), the calls that reached the remote, the local branches that
    have an upstream, the ignore rules in force (whether a path is
    ignored, given the files of the working tree, [.gitignore] files
    among them), and whether the file system takes a write at a path,
    given the files that are there. *)
Record Repo := {
  worktree : gmap string string;
  index : gmap string string;
  current : string;
  branches : gmap string (list Commit);
  sent : list event;
  tracking : gset string;
  ignored : gmap string string → string → bool;
  writable : gmap string string → string → bool
}.

Inductive error :=
| WriteFailed (path : string)
| GitFailed (command : string)
| RequestFailed (request : PullsCreate).

(** What the outside decides: whether git accepts to commit what is
    staged (hooks, identity), whether a push is accepted, what the
    hosting API answers. *)
Record Remote := {
  commit_ok : bool;
  push_ok : string → bool;
  pulls_create : PullsCreate → option PullData
}.

Definition M := Eff Repo error.

Definition history (r : Repo) : list Commit :=
  default [] (branches r !! current r).

(** The files of the newest commit of the current branch. *)
Definition head_snapshot (r : Repo) : option (gmap string string) :=
  snapshot <$> head (history r).

(** The mirror with one of its parts replaced. *)
Definition with_worktree (t : gmap string string) (r : Repo) : Repo :=
  {| worktree := t; index := index r; current := current r;
     branches := branches r; sent := sent r; tracking := tracking r;
     ignored := ignored r; writable := writable r |}.

Definition with_index (i : gmap string string) (r : Repo) : Repo :=
  {| worktree := worktree r; index := i; current := current r;
     branches := branches r; sent := sent r; tracking := tracking r;
     ignored := ignored r; writable := writable r |}.

Definition with_history (h : list Commit) (r : Repo) : Repo :=
  {| worktree := worktree r; index := index r; current := current r;
     branches := <[current r := h]> (branches r); sent := sent r;
     tracking := tracking r; ignored := ignored r;
     writable := writable r |}.

Definition with_sent (e : event) (r : Repo) : Repo :=
  {| worktree := worktree r; index := index r; current := current r;
     branches := branches r; sent := sent r ++ [e];
     tracking := tracking r; ignored := ignored r;
     writable := writable r |}.

(** The mirror right after [git checkout -b]: a new branch at the
    current commit, checked out, without an upstream; working tree and
    index are kept. *)
Definition branched (b : string) (r : Repo) : Repo :=
  {| worktree := worktree r; index := index r; current := b;
     branches := <[b := history r]> (branches r); sent := sent r;
     tracking := tracking r ∖ {[ b ]}; ignored := ignored r;
     writable := writable r |}.

(** What [git add "."] stages at the root of the mirror: the files of
    the working tree that are tracked already or not ignored. A tracked
    file that is gone from the working tree leaves the index. *)
Definition stage (ign : string → bool) (ix wt : gmap string string)
  : gmap string string :=
  filter (λ entry, is_Some (ix !! entry.1) ∨ ign entry.1 = false) wt.

Section WithRemote.
Context (config : Config) (remote : Remote).

(** [git.checkout(["-b", branch])]. Rejects when the name is taken. *)
Definition git_checkout_b (b : string) : M unit := λ r,
  match branches r !! b with
  | Some _ => (Rejected (GitFailed "checkout"), r)
  | None => (Fulfilled (), branched b r)
  end.

(** [fs.mkdir(path.dirname(filePath), { recursive: true })] followed by
    [fs.writeFile(filePath, file.content)]: the file has the new
    content, whatever it had before, unless the file system refuses. *)
Definition write_file (file : FileEdit) : M unit := λ r,
  if writable r (worktree r) (file_path file) then
    (Fulfilled (),
     with_worktree (<[file_path file := file_content file]> (worktree r)) r)
  else (Rejected (WriteFailed (file_path file)), r).

Fixpoint write_files (files : list FileEdit) : M unit :=
  match files with
  | [] => ret ()
  | file :: rest => (await_ write_file file; write_files rest)%eff
  end.

(** [git.add(".")], run at the root of the mirror. *)
Definition git_add_dot : M unit := λ r,
  (Fulfilled (),
   with_index (stage (ignored r (worktree r)) (index r) (worktree r)) r).

(** [git.commit(message)]. When the index holds what the newest commit
    holds there is nothing to commit: the call resolves and no commit is
    made. Otherwise the index becomes the newest commit of the current
    branch, unless git refuses. *)
Definition git_commit (msg : string) : M unit := λ r,
  if decide (index r = default ∅ (head_snapshot r)) then (Fulfilled (), r)
  else if commit_ok remote then
    (Fulfilled (),
     with_history ({| message := msg; snapshot := index r |} :: history r) r)
  else (Rejected (GitFailed "commit"), r).

(** [git.push(remote, branch)] sends the named local branch and sets no
    upstream; [git.push()] sends the current branch to its upstream and,
    with git's default push configuration, is refused when the branch
    has none. *)
Definition git_push (target : option (string * string)) : M unit := λ r,
  match target with
  | Some (_, b) =>
      match branches r !! b with
      | Some commits =>
          if push_ok remote b
          then (Fulfilled (), with_sent (Pushed target b commits) r)
          else (Rejected (GitFailed "push"), r)
      | None => (Rejected (GitFailed "push"), r)
      end
  | None =>
      if bool_decide (current r ∈ tracking r) && push_ok remote (current r)
      then (Fulfilled (), with_sent (Pushed None (current r) (history r)) r)
      else (Rejected (GitFailed "push"), r)
  end.

Definition octokit_pulls_create (request : PullsCreate) : M PullData :=
  λ r,
  match pulls_create remote request with
  | Some data => (Fulfilled data, with_sent (PullRequested request) r)
  | None => (Rejected (RequestFailed request), r)
  end.

(** [a || b] on strings: the empty string is falsy. *)
Definition or_else (a b : string) : string :=
  if bool_decide (a = "") then b else a.

Definition createPullRequest (title b : string) (files : list FileEdit)
    (description : option string) : M PullData :=
  (await_ git_checkout_b b;
   await_ write_files files;
   await_ git_add_dot;
   await_ git_commit title;
   await_ git_push (Some ("origin", b));
   await pr ← octokit_pulls_create
     {| pr_owner := owner config;
        pr_repo := repo config;
        pr_title := title;
        pr_body := or_else (default "" description) title;
        pr_head := b;
        pr_base := or_else (branch config) "main" |};
   ret pr)%eff.

Definition createCommit (msg : string) (files : list FileEdit) : M unit :=
  (await_ write_files files;
   await_ git_add_dot;
   await_ git_commit msg;
   git_push None)%eff.

End WithRemote.

(** The working tree after the edits have been written, in order. *)
Definition apply_edits (files : list FileEdit) (t : gmap string string)
  : gmap string string :=
  foldl (λ acc file, <[file_path file := file_content file]> acc) t files.

(** The file system takes every one of the writes, in order. *)
Fixpoint writes_accepted (ok : gmap string string → string → bool)
    (files : list FileEdit) (t : gmap string string) : bool :=
  match files with
  | [] => true
  | file :: rest =>
      ok t (file_path file)
      && writes_accepted ok rest (<[file_path file := file_content file]> t)
  end.

(** What [git add "."] stages once the edits are written. *)
Definition staged (files : list FileEdit) (r : Repo) : gmap string string :=
  stage (ignored r (apply_edits files (worktree r))) (index r)
    (apply_edits files (worktree r)).

(** The files of the newest commit of the current branch; none before
    the first commit. *)
Definition committed (r : Repo) : gmap string string :=
  default ∅ (head_snapshot r).

(** The mirror once the edits are written and staged, and once the
    commit is made if anything was staged that the newest commit does
    not hold. *)
Definition prepared (files : list FileEdit) (r : Repo) : Repo :=
  with_index (staged files r)
    (with_worktree (apply_edits files (worktree r)) r).

Definition settled (msg : string) (files : list FileEdit) (r : Repo)
  : Repo :=
  if decide (staged files r = committed r) then prepared files r
  else with_history
         ({| message := msg; snapshot := staged files r |} :: history r)
         (prepared files r).


(** Example data: a mirror on [main], which follows its upstream, whose
    working tree holds a local change to [notes.txt] that was never
    committed; everything below [build/] is ignored. Then one edit
    handed to the write-back calls, and two edits of which one goes to
    an ignored path. *)
Definition first_commit : Commit :=
  {| message := "init";
     snapshot := {[ "guides/a.md" := "old text"; "notes.txt" := "notes" ]} |}.

Definition dirty_mirror : Repo :=
  {| worktree := {[ "guides/a.md" := "old text"; "notes.txt" := "scratch" ]};
     index := snapshot first_commit;
     current := "main";
     branches := {[ "main" := [first_commit] ]};
     sent := [];
     tracking := {[ "main" ]};
     ignored := λ _ p, String.prefix "build/" p;
     writable := λ _ _, true |}.

Definition one_edit : list FileEdit :=
  [ {| file_path := "guides/a.md"; file_content := "new text" |} ].


Definition obliging : Remote :=
  {| commit_ok := true;
     push_ok := λ _, true;
     pulls_create := λ _, Some {| pr_number := 1; pr_html_url := "url" |} |}.

End WriteBack.

(* ===================================================================== *)
(** ** client.ts: the constructor and GitHubClientInterface.start         *)
(* ===================================================================== *)

Module Plugin.

Import Environment Mirror Tree Knowledge.

Inductive error :=
| InvalidConfig (e : ValidationError)
| InvalidPathArgument
| MirrorError (e : Mirror.error)
| ScanError (e : Knowledge.error).

Section WithHost.
Context {H : Host}.

(** What [start] works on: the disk and the remote calls of the mirror,
    and the knowledge store with the scan's output. *)
Record Agent := {
  disk : World;
  memories : Scan
}.

Definition M := Eff Agent error.

(** A step of the mirror, or of the scan, run inside [start]. *)
Definition on_mirror {A} (m : Mirror.M A) : M A := λ a,
  match m (disk a) with
  | (Fulfilled x, w) => (Fulfilled x, {| disk := w; memories := memories a |})
  | (Rejected e, w) =>
      (Rejected (MirrorError e), {| disk := w; memories := memories a |})
  end.

Definition on_scan {A} (m : Knowledge.M A) : M A := λ a,
  match m (memories a) with
  | (Fulfilled x, st) => (Fulfilled x, {| disk := disk a; memories := st |})
  | (Rejected e, st) =>
      (Rejected (ScanError e), {| disk := disk a; memories := st |})
  end.

Definition checked (r : outcome ValidationError GithubConfig)
  : M GithubConfig :=
  match r with
  | Fulfilled c => ret c
  | Rejected e => throw (InvalidConfig e)
  end.

(** [new GitHubClient(runtime)]: the five settings are read again;
    [path.join] rejects an owner or a repo that is not a string. A missing
    branch, path or token is falsy like the empty string, and the client
    only ever tests these three for truthiness or hands them on. *)
Definition GitHubClient (runtime : Settings) : M Config :=
  match runtime "GITHUB_OWNER", runtime "GITHUB_REPO" with
  | Some o, Some r =>
      ret {| owner := o; repo := r;
             branch := default "" (runtime "GITHUB_BRANCH");
             path := default "" (runtime "GITHUB_PATH");
             token := default "" (runtime "GITHUB_API_TOKEN") |}
  | _, _ => throw InvalidPathArgument
  end.

(** [GitHubClientInterface.start(runtime)]. The working tree found at
    [repoPath] once [initialize] is through is [checked_out]. *)
Definition start (cwd : string) (runtime : Settings) (remote : Remote)
    (checked_out : node) : M Config :=
  (await_ checked (validateGithubConfig runtime);
   await_ on_mirror (elizaLogger_log "GitHubClientInterface start");
   await client ← GitHubClient runtime;
   await_ on_mirror (initialize cwd client remote);
   await_ on_scan (createMemoriesFromFiles client checked_out);
   ret client)%eff.

Definition boot (s : Store) : Agent :=
  {| disk := blank_disk; memories := fresh s |}.

End WithHost.

End Plugin.

(* ===================================================================== *)
(** ** Vocabulary for the traces, stores and commits of the properties    *)
(* ===================================================================== *)

Module Observed.

Import Environment Mirror Tree Knowledge.

(** The five settings in the order of the schema. *)
Definition schema_keys : list string :=
  ["GITHUB_OWNER"; "GITHUB_REPO"; "GITHUB_BRANCH"; "GITHUB_PATH";
   "GITHUB_API_TOKEN"].

(** A setting that is present and has at least one character, as a
    test. *)
Definition filled (v : option string) : bool :=
  match v with
  | Some s => negb (String.eqb s "")
  | None => false
  end.

(** The message of the schema for each key. *)
Definition schema_message (key : string) : string :=
  if String.eqb key "GITHUB_OWNER" then "GitHub owner is required"
  else if String.eqb key "GITHUB_REPO" then "GitHub repo is required"
  else if String.eqb key "GITHUB_BRANCH" then "GitHub branch is required"
  else if String.eqb key "GITHUB_PATH" then "GitHub path is required"
  else "GitHub API token is required".

(** The issue expected for a key whose setting is not filled. *)
Definition issue_for (runtime : Settings) (key : string) : issue :=
  {| issue_path := key;
     issue_what := match runtime key with
                   | None => invalid_type
                   | Some _ => too_small (schema_message key)
                   end |}.

Definition is_checkout (e : event) : bool :=
  match e with Checkout _ _ => true | _ => false end.

Definition checkouts (w : World) : list event :=
  List.filter is_checkout (events w).

(** The events of [k] clone attempts that were refused, and of one that
    was accepted. *)
Fixpoint refusals (cwd : string) (config : Config) (k : nat) : list event :=
  match k with
  | O => []
  | S k' =>
      Clone (repositoryUrl config) (repoPath cwd config)
      :: LoggerError ("Failed to clone repository from "
                        +:+ repositoryUrl config +:+ ". Retrying...")
      :: refusals cwd config k'
  end.

Definition acceptance (cwd : string) (config : Config) : list event :=
  [Clone (repositoryUrl config) (repoPath cwd config);
   LoggerLog ("Successfully cloned repository from "
                +:+ repositoryUrl config)].

Section WithHost.
Context {H : Host}.

(** The console line that announces a record being set. *)
Definition announcement (item : KnowledgeItem) : list string :=
  ["Processing knowledge for "; character_name; " - ";
   default "" (meta_path <$> metadata (content item))].

(** The record the scan writes for a listed file, when it can be read. *)
Definition record_of (config : Config) (mirror : node) (file : fpath)
  : option KnowledgeItem :=
  match resolve mirror file with
  | Some (File (Some bytes)) => Some (item_of config file bytes)
  | _ => None
  end.

End WithHost.

Import WriteBack.


(** The configuration that the constructor reads from settings that are
    all present. *)
Definition client_of (runtime : Settings) : Config :=
  {| owner := default "" (runtime "GITHUB_OWNER");
     repo := default "" (runtime "GITHUB_REPO");
     branch := default "" (runtime "GITHUB_BRANCH");
     path := default "" (runtime "GITHUB_PATH");
     token := default "" (runtime "GITHUB_API_TOKEN") |}.

(** Example data. *)
Definition half_filled : Settings :=
  settings_of None (Some "docs") (Some "") (Some "guides") None.

Definition all_filled : Settings :=
  settings_of (Some "acme") (Some "docs") (Some "main") (Some "guides")
    (Some "secret").

Definition no_mkdir : Mirror.Remote :=
  {| mkdir_ok := false; clone_ok := λ _, true;
     pull_ok := true; checkout_ok := λ _, true |}.

Definition welcoming : Mirror.Remote :=
  {| mkdir_ok := true; clone_ok := λ _, true;
     pull_ok := true; checkout_ok := λ _, true |}.

Definition two_edits_one_path : list FileEdit :=
  [ {| file_path := "guides/a.md"; file_content := "first" |};
    {| file_path := "guides/b.md"; file_content := "other" |};
    {| file_path := "guides/a.md"; file_content := "second" |} ].

Definition acme_elsewhere : Config :=
  {| owner := "acme"; repo := "docs"; branch := "main"; path := "manuals";
     token := "secret" |}.

Definition push_refusing : WriteBack.Remote :=
  {| commit_ok := true; push_ok := λ _, false;
     pulls_create := λ _, None |}.

(** An edit that puts [notes.txt] back to what the newest commit of the
    example mirror holds, and the example mirror on a file system that
    refuses to write [guides/b.md]. *)
Definition restoring_edit : list FileEdit :=
  [ {| file_path := "notes.txt"; file_content := "notes" |} ].

Definition locked_mirror : Repo :=
  {| worktree := worktree dirty_mirror; index := index dirty_mirror;
     current := current dirty_mirror; branches := branches dirty_mirror;
     sent := sent dirty_mirror; tracking := tracking dirty_mirror;
     ignored := ignored dirty_mirror;
     writable := λ _ p, negb (String.eqb p "guides/b.md") |}.

End Observed.

(* ===================================================================== *)
(** * Properties                                                          *)
(* ===================================================================== *)

(** ** Configuration check *)

Section EnvironmentFacts.
Import Environment.

Lemma string_min1_ok key message v :
  string_min1 key message v = [] ↔ non_empty v.
Proof.
  unfold string_min1, non_empty. destruct v as [s|].
  - destruct s as [|c s]; simpl.
    + split; [discriminate|]. intros (s' & [= <-] & Hne). by destruct Hne.
    + split; [|done]. intros _. by eexists.
  - split; [discriminate|]. by intros (s & ? & _).
Qed.

Lemma string_min1_cases key message v :
  (non_empty v ∧ string_min1 key message v = [])
  ∨ (¬ non_empty v ∧ ∃ i, string_min1 key message v = [i]).
Proof.
  destruct (string_min1 key message v) as [|i l] eqn:E.
  - left. split; [by apply (string_min1_ok key message)|done].
  - right. split.
    + intros Hne. apply (string_min1_ok key message) in Hne. congruence.
    + unfold string_min1 in E. destruct v as [s|]; [|by eexists].
      destruct (String.length s <? 1)%nat; [by eexists|done].
Qed.

Lemma validate_fulfilled runtime :
  all_five runtime →
  validateGithubConfig runtime =
    Fulfilled {| GITHUB_OWNER := default "" (runtime "GITHUB_OWNER");
                 GITHUB_REPO := default "" (runtime "GITHUB_REPO");
                 GITHUB_BRANCH := default "" (runtime "GITHUB_BRANCH");
                 GITHUB_PATH := default "" (runtime "GITHUB_PATH");
                 GITHUB_API_TOKEN :=
                   default "" (runtime "GITHUB_API_TOKEN") |}.
Proof.
  intros (Ho & Hr & Hb & Hp & Ht).
  unfold validateGithubConfig, githubEnvSchema_parse, githubEnvSchema_issues.
  cbn [raw_owner raw_repo raw_branch raw_path raw_token].
  rewrite !(proj2 (string_min1_ok _ _ _)) by done.
  destruct Ho as (o & -> & _), Hr as (r & -> & _), Hb as (b & -> & _),
    Hp as (p & -> & _), Ht as (t & -> & _).
  reflexivity.
Qed.

Lemma validate_rejected runtime :
  ¬ all_five runtime → rejected runtime.
Proof.
  intros Hnot. unfold rejected, validateGithubConfig, githubEnvSchema_parse.
  destruct (githubEnvSchema_issues _) as [|i l] eqn:E; [|by eexists].
  exfalso. apply Hnot.
  unfold githubEnvSchema_issues in E.
  cbn [raw_owner raw_repo raw_branch raw_path raw_token] in E.
  repeat match type of E with
         | (_ ++ _)%list = [] => apply app_eq_nil in E as [? E]
         end.
  repeat split; eapply string_min1_ok; eassumption.
Qed.

Lemma all_five_dec runtime : all_five runtime ∨ ¬ all_five runtime.
Proof.
  unfold all_five.
  destruct (string_min1_cases "" "" (runtime "GITHUB_OWNER")) as [[? _]|[? _]];
  destruct (string_min1_cases "" "" (runtime "GITHUB_REPO")) as [[? _]|[? _]];
  destruct (string_min1_cases "" "" (runtime "GITHUB_BRANCH")) as [[? _]|[? _]];
  destruct (string_min1_cases "" "" (runtime "GITHUB_PATH")) as [[? _]|[? _]];
  destruct (string_min1_cases "" "" (runtime "GITHUB_API_TOKEN"))
    as [[? _]|[? _]];
  tauto.
Qed.

(** C8 (as amended). The configuration check accepts exactly the settings
    in which all five of owner, repo, branch, path and API token are
    present and non-empty, and returns them unchanged; it rejects exactly
    when one of the five, the path included, is empty or missing. *)
Theorem validateGithubConfig_requires_all_five (runtime : Settings) :
  (accepted runtime ↔ all_five runtime)
  ∧ (rejected runtime ↔ ¬ all_five runtime)
  ∧ (∀ c, validateGithubConfig runtime = Fulfilled c →
       runtime "GITHUB_OWNER" = Some (GITHUB_OWNER c)
       ∧ runtime "GITHUB_REPO" = Some (GITHUB_REPO c)
       ∧ runtime "GITHUB_BRANCH" = Some (GITHUB_BRANCH c)
       ∧ runtime "GITHUB_PATH" = Some (GITHUB_PATH c)
       ∧ runtime "GITHUB_API_TOKEN" = Some (GITHUB_API_TOKEN c)).
Proof.
  assert (Hacc : all_five runtime → accepted runtime).
  { intros Hall. eexists. by apply validate_fulfilled. }
  assert (Hexcl : accepted runtime → rejected runtime → False).
  { intros [c Hc] [e He]. congruence. }
  split; [|split].
  - split; [|done]. intros Ha.
    destruct (all_five_dec runtime) as [|Hn]; [done|].
    destruct (Hexcl Ha (validate_rejected _ Hn)).
  - split; [|apply validate_rejected].
    intros Hr Hall. exact (Hexcl (Hacc Hall) Hr).
  - intros c Hc.
    destruct (all_five_dec runtime) as [Hall|Hn].
    + rewrite (validate_fulfilled _ Hall) in Hc. injection Hc as <-.
      destruct Hall as ((o & -> & _) & (r & -> & _) & (b & -> & _)
                        & (p & -> & _) & (t & -> & _)).
      done.
    + destruct (validate_rejected _ Hn) as [e He]. congruence.
Qed.

(** C8, counterexample. Owner, repo, branch and token are non-empty and
    the path is empty (or absent): the check rejects, with the issue
    raised for GITHUB_PATH. *)
Lemma validateGithubConfig_rejects_empty_path :
  let with_path p :=
    settings_of (Some "acme") (Some "docs") (Some "main") p (Some "t") in
  non_empty (with_path (Some "") "GITHUB_OWNER")
  ∧ non_empty (with_path (Some "") "GITHUB_REPO")
  ∧ non_empty (with_path (Some "") "GITHUB_BRANCH")
  ∧ non_empty (with_path (Some "") "GITHUB_API_TOKEN")
  ∧ validateGithubConfig (with_path (Some "")) =
      Rejected {| validation_issues :=
        [ {| issue_path := "GITHUB_PATH";
             issue_what := too_small "GitHub path is required" |} ] |}
  ∧ validateGithubConfig (with_path None) =
      Rejected {| validation_issues :=
        [ {| issue_path := "GITHUB_PATH"; issue_what := invalid_type |} ] |}
  ∧ ¬ accepted (with_path (Some ""))
  ∧ ¬ accepted (with_path None).
Proof.
  cbv zeta.
  repeat split; try (by eexists); intros [c Hc]; vm_compute in Hc;
    discriminate.
Qed.

End EnvironmentFacts.

(** ** The local mirror *)

Section MirrorFacts.
Import Mirror.
Context (cwd : string) (config : Config) (remote : Remote).

Lemma clone_attempts_record e w :
  clone_attempts (record e w)
  = (clone_attempts w + if is_clone e then 1 else 0)%nat.
Proof.
  unfold clone_attempts, record; simpl.
  rewrite List.filter_app, length_app. f_equal.
  simpl. by destruct (is_clone e).
Qed.

Lemma pulls_record e w :
  pulls (record e w) = (pulls w + if is_pull e then 1 else 0)%nat.
Proof.
  unfold pulls, record; simpl.
  rewrite List.filter_app, length_app. f_equal.
  simpl. by destruct (is_pull e).
Qed.

(** One iteration of the retry loop. *)
Lemma cloneRepository_from_step retries w :
  (retries < maxRetries)%nat →
  cloneRepository_from cwd config remote retries w =
    if clone_ok remote (clone_attempts w)
    then (Fulfilled (), after_success cwd config w)
    else if decide (S retries = maxRetries)
         then (Rejected (exhausted config), after_failure cwd config w)
         else cloneRepository_from cwd config remote (S retries)
                (after_failure cwd config w).
Proof.
  intros Hlt. rewrite cloneRepository_from_equation_1.
  destruct (decide (retries < maxRetries)%nat) as [?|?]; [|lia].
  cbn [cloneRepository_from_unfold_clause_1].
  unfold try_catch, bind, git_clone.
  destruct (clone_ok remote (clone_attempts w)); [reflexivity|].
  unfold elizaLogger_error.
  destruct (decide (S retries = maxRetries)); reflexivity.
Qed.

Lemma clone_attempts_after_failure w :
  clone_attempts (after_failure cwd config w) = S (clone_attempts w).
Proof. unfold after_failure. rewrite !clone_attempts_record. simpl. lia. Qed.

Lemma clone_attempts_after_success w :
  clone_attempts (after_success cwd config w) = S (clone_attempts w).
Proof.
  unfold after_success. rewrite clone_attempts_record.
  unfold clone_attempts, record. cbn [events is_clone].
  rewrite List.filter_app, length_app. cbn. lia.
Qed.

(** The whole retry loop, by the answers of the remote to the next three
    attempts. *)
Lemma cloneRepository_cases w :
  let n := clone_attempts w in
  let w1 := after_failure cwd config w in
  let w2 := after_failure cwd config w1 in
  cloneRepository cwd config remote w =
    if clone_ok remote n then (Fulfilled (), after_success cwd config w)
    else if clone_ok remote (n + 1)
    then (Fulfilled (), after_success cwd config w1)
    else if clone_ok remote (n + 2)
    then (Fulfilled (), after_success cwd config w2)
    else (Rejected (exhausted config), after_failure cwd config w2).
Proof.
  intros n w1 w2. unfold cloneRepository.
  rewrite cloneRepository_from_step by (unfold maxRetries; lia).
  fold n. destruct (clone_ok remote n); [done|].
  destruct (decide (1 = maxRetries)) as [[=]|_].
  rewrite cloneRepository_from_step by (unfold maxRetries; lia).
  fold w1. replace (clone_attempts w1) with (n + 1)%nat
    by (subst w1 n; rewrite clone_attempts_after_failure; lia).
  destruct (clone_ok remote (n + 1)); [done|].
  destruct (decide (2 = maxRetries)) as [[=]|_].
  rewrite cloneRepository_from_step by (unfold maxRetries; lia).
  fold w2. replace (clone_attempts w2) with (n + 2)%nat
    by (subst w2 w1 n; rewrite !clone_attempts_after_failure; lia).
  destruct (clone_ok remote (n + 2)); [done|].
  destruct (decide (3 = maxRetries)) as [_|Hne]; [done|].
  by destruct Hne.
Qed.

Lemma initialize_unfold w :
  initialize cwd config remote w =
    match fs_mkdir remote
            (path_join (path_join cwd ".repos") (owner config)) w with
    | (Fulfilled _, w1) =>
        then_checkout cwd config remote
          (match on_disk w1 with
           | MirrorPresent => git_pull remote (repoPath cwd config) w1
           | _ => cloneRepository cwd config remote w1
           end)
    | (Rejected e, w1) => (Rejected e, w1)
    end.
Proof.
  unfold initialize, bind, existsSync_repoPath, then_checkout, ret.
  destruct (fs_mkdir _ _ w) as [[[]|e] w1]; [|done].
  destruct (on_disk w1); cbn;
    match goal with
    | |- (let (_, _) := ?x in _) = _ => destruct x as [[[]|?] ?]
    end; try done; by destruct (bool_decide _).
Qed.

Ltac count_events :=
  repeat first
    [ rewrite clone_attempts_after_success
    | rewrite clone_attempts_after_failure
    | rewrite clone_attempts_record
    | rewrite pulls_record ];
  cbn [is_clone is_pull]; try lia.

(** C3. Without a local mirror the clone is attempted at most three
    times. When the remote refuses twice and accepts the third attempt,
    [cloneRepository] fulfils after exactly three attempts; when it
    always refuses, [cloneRepository] rejects with the "Unable to clone
    ... after 3 retries." error after exactly three attempts. The same
    counts hold for [initialize] started without a mirror. *)
Theorem cloneRepository_three_attempts (w : World) :
  let n := clone_attempts w in
  let cloned := cloneRepository cwd config remote w in
  let ready := initialize cwd config remote w in
  (clone_attempts cloned.2 ≤ n + 3)%nat
  ∧ (clone_attempts ready.2 ≤ n + 3)%nat
  ∧ (clone_ok remote n = false → clone_ok remote (n + 1) = false →
     clone_ok remote (n + 2) = true →
       cloned.1 = Fulfilled ()
       ∧ clone_attempts cloned.2 = (n + 3)%nat
       ∧ on_disk cloned.2 = MirrorPresent
       ∧ (on_disk w ≠ MirrorPresent → mkdir_passes remote w →
          checkout_ok remote (branch config) = true →
            ready.1 = Fulfilled ()
            ∧ clone_attempts ready.2 = (n + 3)%nat))
  ∧ ((∀ k, clone_ok remote k = false) →
       cloned.1 = Rejected (exhausted config)
       ∧ clone_attempts cloned.2 = (n + 3)%nat
       ∧ (on_disk w ≠ MirrorPresent → mkdir_passes remote w →
            ready.1 = Rejected (exhausted config)
            ∧ clone_attempts ready.2 = (n + 3)%nat)).
Proof.
  intros n cloned ready.
  assert (Hcl : ∀ w0, (clone_attempts (cloneRepository cwd config remote w0).2
                       ≤ clone_attempts w0 + 3)%nat).
  { intros w0. rewrite cloneRepository_cases.
    repeat match goal with
           | |- context [clone_ok remote ?k] => destruct (clone_ok remote k)
           end; cbn [snd]; count_events. }
  assert (Hco : ∀ r, clone_attempts (then_checkout cwd config remote r).2
                     = clone_attempts r.2).
  { intros [[[]|e] w']; cbn [then_checkout snd]; [|done].
    destruct (bool_decide _); [|done]. unfold git_checkout.
    destruct (checkout_ok _ _); cbn [snd]; count_events. }
  assert (Hmk_n : ∀ dir, clone_attempts (fs_mkdir remote dir w).2 = n).
  { intros dir. unfold fs_mkdir.
    destruct (on_disk w), (mkdir_ok remote); cbn [snd];
      try (change (clone_attempts {| on_disk := ?d; events := events ?x |})
             with (clone_attempts x)); count_events. }
  split; [apply Hcl|]. split.
  { subst ready. rewrite initialize_unfold.
    set (dir := path_join _ _).
    specialize (Hmk_n dir).
    destruct (fs_mkdir remote dir w) as [[[]|e] w1] eqn:E; cbn [snd] in *.
    - rewrite Hco. destruct (on_disk w1).
      + specialize (Hcl w1). lia.
      + specialize (Hcl w1). lia.
      + unfold git_pull. destruct (pull_ok remote); cbn [snd]; count_events.
    - lia. }
  assert (Hready : on_disk w ≠ MirrorPresent → mkdir_passes remote w →
    ∃ w1, clone_attempts w1 = n
          ∧ ready = then_checkout cwd config remote
                      (cloneRepository cwd config remote w1)).
  { intros Hd Hmkdir. subst ready.
    exists (fs_mkdir remote (path_join (path_join cwd ".repos")
                               (owner config)) w).2.
    split; [apply Hmk_n|]. rewrite initialize_unfold.
    unfold mkdir_passes in Hmkdir. unfold fs_mkdir.
    destruct (on_disk w) eqn:E; [| |done].
    - by rewrite Hmkdir.
    - cbn. by rewrite E. }
  split.
  - intros H0 H1 H2. subst cloned. rewrite cloneRepository_cases.
    fold n. rewrite H0, H1, H2. cbn [fst snd].
    split; [done|]. split; [subst n; count_events|]. split; [done|].
    intros Hd Hmkdir Hck. destruct (Hready Hd Hmkdir) as (w1 & Hn & ->).
    rewrite cloneRepository_cases, Hn, H0, H1, H2. cbn [then_checkout].
    unfold git_checkout. rewrite Hck.
    destruct (bool_decide _); cbn [fst snd]; (split; [done|]);
      rewrite <- Hn; count_events.
  - intros Hall. subst cloned. rewrite cloneRepository_cases.
    rewrite !Hall. cbn [fst snd].
    split; [done|]. split; [subst n; count_events|].
    intros Hd Hmkdir. destruct (Hready Hd Hmkdir) as (w1 & Hn & ->).
    rewrite cloneRepository_cases.
    rewrite !Hall. cbn [then_checkout fst snd].
    split; [done|]. rewrite <- Hn; count_events.
Qed.

(** C7. When the mirror is already on disk, [initialize] attempts no
    clone and pulls exactly once; when that pull fails, the failure of
    the pull is what [initialize] rejects with, and nothing is done after
    it: no second pull and no checkout. *)
Theorem initialize_existing_mirror_pulls_once (w : World) :
  on_disk w = MirrorPresent →
  let ready := initialize cwd config remote w in
  let dir := path_join (path_join cwd ".repos") (owner config) in
  clone_attempts ready.2 = clone_attempts w
  ∧ pulls ready.2 = S (pulls w)
  ∧ (pull_ok remote = false →
       ready.1 = Rejected (GitFailed (Pull (repoPath cwd config)))
       ∧ events ready.2
         = (events w ++ [Mkdir dir; Pull (repoPath cwd config)])%list).
Proof.
  intros Hd ready dir. subst ready. rewrite initialize_unfold.
  fold dir. unfold fs_mkdir. rewrite Hd. cbn [record on_disk].
  rewrite Hd. unfold git_pull, then_checkout, git_checkout.
  destruct (pull_ok remote).
  - destruct (bool_decide _); [destruct (checkout_ok remote _)|];
      cbn [snd]; (split; [count_events|]); (split; [count_events|]); done.
  - cbn [fst snd]. split; [count_events|]. split; [count_events|].
    intros _. split; [done|].
    unfold record. cbn [events]. by rewrite <- app_assoc.
Qed.

End MirrorFacts.

(** ** Decoding and encoding of file contents *)

Section Utf8Facts.
Import Utf8.
Open Scope Z_scope.

Lemma byte_to_Z_range b : 0 ≤ byte_to_Z b < 256.
Proof.
  unfold byte_to_Z. pose proof (Byte.to_N_bounded b). lia.
Qed.

Lemma byte_to_of_Z z : 0 ≤ z < 256 → byte_to_Z (byte_of_Z z) = z.
Proof.
  intros Hz. unfold byte_to_Z, byte_of_Z.
  destruct (Byte.of_N (Z.to_N z)) as [b|] eqn:E.
  - apply Byte.to_of_N in E. lia.
  - apply Byte.of_N_None_iff in E. lia.
Qed.

(** A bitwise or of a multiple of 2^n with a number below 2^n is their
    sum. *)
Lemma lor_add a b n :
  0 ≤ n → a mod 2 ^ n = 0 → 0 ≤ b < 2 ^ n → Z.lor a b = a + b.
Proof.
  intros Hn Ha Hb.
  assert (Hland : Z.land a b = 0).
  { apply Z.bits_inj'. intros i Hi.
    rewrite Z.land_spec, Z.bits_0.
    destruct (Z.lt_ge_cases i n) as [Hlt|Hge].
    - rewrite <- (Z.mod_pow2_bits_low a n i) by lia.
      by rewrite Ha, Z.bits_0.
    - rewrite <- (Z.mod_small b (2 ^ n)) by lia.
      rewrite Z.mod_pow2_bits_high by lia. apply andb_false_r. }
  by rewrite <- Z.lxor_lor, Z.add_nocarry_lxor.
Qed.

Lemma land_low b k n :
  0 ≤ n → 0 ≤ b - k < 2 ^ n → k mod 2 ^ n = 0 →
  Z.land b (Z.ones n) = b - k.
Proof.
  intros Hn Hb Hk. rewrite Z.land_ones by done.
  replace b with ((b - k) + k) at 1 by lia.
  rewrite Zplus_mod, Hk, Z.add_0_r, Zmod_mod. by apply Z.mod_small.
Qed.

(** Side conditions over a concrete power of two. *)
Ltac pow_side :=
  first [ reflexivity
        | lia
        | match goal with
          | |- context [2 ^ ?n] =>
              let v := eval vm_compute in (2 ^ n) in
              change (2 ^ n) with v; lia
          end ].

Lemma within_true a b x : a ≤ x ≤ b → within a b x = true.
Proof. unfold within. lia. Qed.

Lemma within_false a b x : x < a ∨ b < x → within a b x = false.
Proof. unfold within. lia. Qed.

Lemma lead_ascii b : 0 ≤ b ≤ 0x7F → lead b = ([b], idle).
Proof. intros Hb. unfold lead. by rewrite (proj2 (Z.leb_le _ _)) by lia. Qed.

Lemma lead_two b :
  0xC2 ≤ b ≤ 0xDF →
  lead b = ([], {| cp := b - 0xC0; need := 1; lo := 0x80; hi := 0xBF |}).
Proof.
  intros Hb. unfold lead.
  rewrite (proj2 (Z.leb_gt _ _)) by lia. rewrite within_true by lia.
  change 0x1F with (Z.ones 5).
  by rewrite (land_low b 0xC0 5) by pow_side.
Qed.

Lemma lead_three b :
  0xE0 ≤ b ≤ 0xEF →
  lead b = ([], {| cp := b - 0xE0; need := 2;
                   lo := if b =? 0xE0 then 0xA0 else 0x80;
                   hi := if b =? 0xED then 0x9F else 0xBF |}).
Proof.
  intros Hb. unfold lead.
  rewrite (proj2 (Z.leb_gt _ _)) by lia.
  rewrite (within_false 0xC2) by lia. rewrite within_true by lia.
  change 0xF with (Z.ones 4).
  by rewrite (land_low b 0xE0 4) by pow_side.
Qed.

Lemma lead_four b :
  0xF0 ≤ b ≤ 0xF4 →
  lead b = ([], {| cp := b - 0xF0; need := 3;
                   lo := if b =? 0xF0 then 0x90 else 0x80;
                   hi := if b =? 0xF4 then 0x8F else 0xBF |}).
Proof.
  intros Hb. unfold lead.
  rewrite (proj2 (Z.leb_gt _ _)) by lia.
  rewrite (within_false 0xC2), (within_false 0xE0) by lia.
  rewrite within_true by lia.
  change 0x7 with (Z.ones 3).
  by rewrite (land_low b 0xF0 3) by pow_side.
Qed.

Lemma lead_ill b :
  0x80 ≤ b ≤ 0xC1 ∨ 0xF5 ≤ b → lead b = ([replacement], idle).
Proof.
  intros Hb. unfold lead.
  rewrite (proj2 (Z.leb_gt _ _)) by lia.
  by rewrite !within_false by lia.
Qed.

(** A continuation byte that is accepted. *)
Lemma step_continue st n b :
  need st = S n → 0 ≤ cp st → 0x80 ≤ lo st → hi st ≤ 0xBF →
  lo st ≤ b ≤ hi st →
  step st b =
    match n with
    | O => ([cp st * 64 + (b - 0x80)], idle)
    | S _ => ([], {| cp := cp st * 64 + (b - 0x80); need := n;
                     lo := 0x80; hi := 0xBF |})
    end.
Proof.
  intros Hn Hcp Hlo Hhi Hb. unfold step. rewrite Hn.
  rewrite within_true by done.
  change 0x3F with (Z.ones 6).
  rewrite (land_low b 0x80 6) by pow_side.
  rewrite Z.shiftl_mul_pow2 by lia.
  rewrite (lor_add _ _ 6); [done|lia| |pow_side].
  change (2 ^ 6) with 64. by rewrite Z.mod_mul.
Qed.

Lemma replacement_scalar : scalar replacement.
Proof. unfold scalar, replacement. lia. Qed.

Lemma idle_sound : sound idle.
Proof. unfold sound, idle; cbn. repeat split; (lia || done). Qed.

Lemma lead_sound b :
  0 ≤ b < 256 → Forall scalar (lead b).1 ∧ sound (lead b).2.
Proof.
  intros Hb.
  destruct (Z.le_gt_cases b 0x7F) as [H1|H1].
  { rewrite lead_ascii by lia. cbn [fst snd]. split; [|apply idle_sound].
    constructor; [unfold scalar; lia|constructor]. }
  destruct (Z.le_gt_cases b 0xC1) as [H2|H2].
  { rewrite lead_ill by lia. cbn [fst snd]. split; [|apply idle_sound].
    constructor; [apply replacement_scalar|constructor]. }
  destruct (Z.le_gt_cases b 0xDF) as [H3|H3].
  { rewrite lead_two by lia. cbn [fst snd]. split; [constructor|].
    unfold sound; cbn. repeat split; try lia.
    intros _ b2 Hb2. unfold scalar. lia. }
  destruct (Z.le_gt_cases b 0xEF) as [H4|H4].
  { rewrite lead_three by lia. cbn [fst snd]. split; [constructor|].
    unfold sound; cbn [cp need lo hi completes].
    destruct (Z.eqb_spec b 0xE0), (Z.eqb_spec b 0xED);
      (repeat split; try lia); intros _ b2 Hb2 b3 Hb3; unfold scalar; lia. }
  destruct (Z.le_gt_cases b 0xF4) as [H5|H5].
  { rewrite lead_four by lia. cbn [fst snd]. split; [constructor|].
    unfold sound; cbn [cp need lo hi completes].
    destruct (Z.eqb_spec b 0xF0), (Z.eqb_spec b 0xF4);
      (repeat split; try lia); intros _ b2 Hb2 b3 Hb3 b4 Hb4;
      unfold scalar; lia. }
  rewrite lead_ill by lia. cbn [fst snd]. split; [|apply idle_sound].
  constructor; [apply replacement_scalar|constructor].
Qed.

Lemma step_sound st b :
  sound st → 0 ≤ b < 256 →
  Forall scalar (step st b).1 ∧ sound (step st b).2.
Proof.
  intros (Hcp & Hlo & Hhi & Hcompl) Hb.
  destruct (need st) as [|n] eqn:En.
  { unfold step. rewrite En. by apply lead_sound. }
  specialize (Hcompl ltac:(done)). cbn [completes] in Hcompl.
  destruct (Z.lt_ge_cases b (lo st)) as [Hlt|Hge];
    [|destruct (Z.lt_ge_cases (hi st) b) as [Hgt|Hle]].
  - unfold step. rewrite En, within_false by lia.
    destruct (lead_sound b Hb) as [Hout Hst].
    destruct (lead b) as [out st']. split; [|done].
    constructor; [apply replacement_scalar|done].
  - unfold step. rewrite En, within_false by lia.
    destruct (lead_sound b Hb) as [Hout Hst].
    destruct (lead b) as [out st']. split; [|done].
    constructor; [apply replacement_scalar|done].
  - rewrite (step_continue st n b) by (done || lia).
    specialize (Hcompl b ltac:(lia)).
    destruct n as [|n']; cbn [fst snd].
    + split; [constructor; [done|constructor]|apply idle_sound].
    + split; [constructor|]. unfold sound; cbn [cp need lo hi].
      repeat split; try lia. done.
Qed.

(** Decoding yields scalar values only. *)
Lemma decode_from_scalar st bs : sound st → Forall scalar (decode_from st bs).
Proof.
  revert st. induction bs as [|b bs IH]; intros st Hst; cbn [decode_from].
  - destruct (need st); [constructor|].
    constructor; [apply replacement_scalar|constructor].
  - destruct (step_sound st (byte_to_Z b) Hst (byte_to_Z_range b))
      as [Hout Hst'].
    destruct (step st (byte_to_Z b)) as [out st'].
    apply Forall_app. split; [done|by apply IH].
Qed.

Lemma decode_scalar bs : Forall scalar (decode bs).
Proof. apply decode_from_scalar, idle_sound. Qed.

Ltac div_lia := Z.div_mod_to_equations; lia.

(** Side conditions of [step_continue], after the bounds that depend on
    the lead byte have been told apart. *)
Ltac side :=
  cbn [need cp lo hi]; try done;
  repeat match goal with
         | |- context [?a =? ?b] => destruct (Z.eqb_spec a b)
         end;
  div_lia.

Lemma continuation_byte x :
  Z.lor 0x80 (Z.land x 0x3F) = 0x80 + x mod 64.
Proof.
  change 0x3F with (Z.ones 6). rewrite Z.land_ones by lia.
  change (2 ^ 6) with 64.
  apply (lor_add _ _ 6); [lia|reflexivity|]. change (2 ^ 6) with 64. div_lia.
Qed.

Lemma leading_byte k n c m :
  0 ≤ n → 0 ≤ m → k mod 2 ^ n = 0 → 0 ≤ c < 2 ^ (m + n) →
  Z.lor k (Z.shiftr c m) = k + c / 2 ^ m.
Proof.
  intros Hn Hm Hk Hc. rewrite Z.shiftr_div_pow2 by done.
  apply (lor_add _ _ n); [done|done|].
  rewrite Z.pow_add_r in Hc by done.
  split; [apply Z.div_pos; lia|].
  apply Z.div_lt_upper_bound; lia.
Qed.

Lemma decode_from_cons st z rest :
  0 ≤ z < 256 →
  decode_from st (byte_of_Z z :: rest)
  = (step st z).1 ++ decode_from (step st z).2 rest.
Proof.
  intros Hz. cbn [decode_from]. rewrite byte_to_of_Z by done.
  by destruct (step st z).
Qed.

(** Decoding undoes the encoding of a scalar value. *)
Lemma decode_encode_cp c rest :
  scalar c →
  decode_from idle (encode_cp c ++ rest) = c :: decode_from idle rest.
Proof.
  intros Hc. unfold encode_cp.
  assert (Hrange : 0 ≤ c < 0xD800 ∨ 0xE000 ≤ c ≤ 0x10FFFF) by done.
  clear Hc.
  destruct (Z.ltb_spec c 0x80) as [H1|H1];
    [|destruct (Z.ltb_spec c 0x800) as [H2|H2];
      [|destruct (Z.ltb_spec c 0x10000) as [H3|H3]]];
    cbn [app]; rewrite ?continuation_byte.
  - rewrite decode_from_cons by lia.
    unfold step; cbn [need idle].
    by rewrite lead_ascii by lia.
  - rewrite (leading_byte 0xC0 6 c 6) by pow_side.
    change (2 ^ 6) with 64.
    rewrite decode_from_cons by div_lia.
    unfold step at 1 2; cbn [need idle]. rewrite lead_two by div_lia.
    cbn [fst snd app].
    rewrite decode_from_cons by div_lia.
    rewrite (step_continue _ 0) by side.
    cbn [fst snd app cp]. f_equal. div_lia.
  - rewrite (leading_byte 0xE0 4 c 12) by pow_side.
    change (2 ^ 12) with 4096. rewrite Z.shiftr_div_pow2 by lia.
    change (2 ^ 6) with 64.
    rewrite decode_from_cons by div_lia.
    unfold step at 1 2; cbn [need idle]. rewrite lead_three by div_lia.
    cbn [fst snd app].
    rewrite decode_from_cons by div_lia.
    rewrite (step_continue _ 1) by side.
    cbn [fst snd app].
    rewrite decode_from_cons by div_lia.
    rewrite (step_continue _ 0) by side.
    cbn [fst snd app cp]. f_equal. div_lia.
  - assert (Hmax : 0x10000 ≤ c ≤ 0x10FFFF) by lia.
    rewrite (leading_byte 0xF0 3 c 18) by pow_side.
    change (2 ^ 18) with 262144. rewrite !Z.shiftr_div_pow2 by lia.
    change (2 ^ 6) with 64. change (2 ^ 12) with 4096.
    rewrite decode_from_cons by div_lia.
    unfold step at 1 2; cbn [need idle]. rewrite lead_four by div_lia.
    cbn [fst snd app].
    rewrite decode_from_cons by div_lia.
    rewrite (step_continue _ 2) by side.
    cbn [fst snd app].
    rewrite decode_from_cons by div_lia.
    rewrite (step_continue _ 1) by side.
    cbn [fst snd app].
    rewrite decode_from_cons by div_lia.
    rewrite (step_continue _ 0) by side.
    cbn [fst snd app cp]. f_equal. div_lia.
Qed.

Lemma decode_encode t : Forall scalar t → decode (encode t) = t.
Proof.
  unfold decode. induction 1 as [|c t Hc _ IH]; [done|].
  cbn [encode flat_map]. rewrite decode_encode_cp by done.
  f_equal. exact IH.
Qed.

(** A well-formed file is read and digested byte for byte. *)
Lemma encode_decode_well_formed bs :
  well_formed bs → encode (decode bs) = bs.
Proof. intros (t & Ht & ->). by rewrite decode_encode. Qed.

Lemma encode_decoded_inj b1 b2 :
  encode (decode b1) = encode (decode b2) → decode b1 = decode b2.
Proof.
  intros Heq. apply (f_equal decode) in Heq.
  by rewrite !decode_encode in Heq by apply decode_scalar.
Qed.

End Utf8Facts.

(** ** The working tree and the file listing *)

Section TreeFacts.
Import Tree.

Lemma node_ind' (P : node → Prop) :
  (∀ data, P (File data)) →
  (∀ es, Forall (λ e, P e.2) es → P (Dir es)) →
  ∀ n, P n.
Proof.
  intros Hfile Hdir.
  fix IH 1. intros [data|es]; [apply Hfile|].
  apply Hdir. induction es as [|e es IHes]; constructor; [apply IH|done].
Qed.

Lemma entry_Some name es c :
  entry name es = Some c → (name, c) ∈ es.
Proof.
  induction es as [|[n c'] es IH]; [done|]. cbn [entry].
  destruct (String.eqb_spec n name) as [->|_].
  - intros [= ->]. by left.
  - intros Hc. right. by apply IH.
Qed.

Lemma entry_NoDup name es c :
  NoDup (map fst es) → (name, c) ∈ es → entry name es = Some c.
Proof.
  induction es as [|[n c'] es IH]; [by intros _ ?%elem_of_nil|].
  cbn [map fst entry]. rewrite NoDup_cons. intros [Hnin Hnd].
  intros [[= -> ->]|Hin]%elem_of_cons.
  - by rewrite String.eqb_refl.
  - destruct (String.eqb_spec n name) as [->|_]; [|by apply IH].
    destruct Hnin. apply list_elem_of_In, in_map_iff.
    exists (name, c). split; [done|]. by apply list_elem_of_In.
Qed.

Lemma well_formed_entries es e :
  well_formed (Dir es) → e ∈ es → well_formed e.2.
Proof.
  intros [_ Hall]. induction es as [|e' es IH]; [by intros ?%elem_of_nil|].
  destruct Hall as [He' Hall].
  intros [->|Hin]%elem_of_cons; [done|by apply IH].
Qed.

Lemma resolve_app n p q :
  resolve n (p ++ q) = resolve n p ≫= λ m, resolve m q.
Proof.
  revert n. induction p as [|name p IH]; intros n; [done|].
  cbn [app resolve]. destruct n as [data|es]; [done|].
  destruct (entry name es) as [c|]; [apply IH|done].
Qed.

Lemma well_formed_resolve n p m :
  well_formed n → resolve n p = Some m → well_formed m.
Proof.
  revert n. induction p as [|name p IH]; intros n Hwf; cbn [resolve].
  - by intros [= <-].
  - destruct n as [data|es]; [done|].
    destruct (entry name es) as [c|] eqn:Ec; [|done].
    apply IH. apply entry_Some in Ec.
    by apply (well_formed_entries es (name, c)).
Qed.

Lemma matches_dir es q :
  q ∈ matches (Dir es) ↔
  ∃ name c q', (name, c) ∈ es ∧ dot_name name = false
               ∧ q = name :: q' ∧ q' ∈ matches c.
Proof.
  cbn [matches]. rewrite list_elem_of_In, in_flat_map. split.
  - intros ([name c] & Hin & Hq). cbn [fst snd] in Hq.
    destruct (dot_name name) eqn:Ed; [done|].
    apply in_map_iff in Hq as (q' & <- & Hq').
    exists name, c, q'. by rewrite !list_elem_of_In.
  - intros (name & c & q' & Hin & Hd & -> & Hq').
    exists (name, c). rewrite <- list_elem_of_In. split; [done|].
    cbn [fst snd]. rewrite Hd. apply in_map. by apply list_elem_of_In.
Qed.

(** What the listing below a node contains. *)
Lemma matches_spec n :
  well_formed n → ∀ q, q ∈ matches n ↔ is_file n q ∧ undotted q.
Proof.
  induction n as [data|es IH] using node_ind'; intros Hwf q.
  - cbn [matches]. rewrite list_elem_of_singleton. split.
    + intros ->. split; [by eexists|constructor].
    + intros [[d Hd] _]. by destruct q.
  - rewrite matches_dir. split.
    + intros (name & c & q' & Hin & Hdot & -> & Hq').
      rewrite Forall_forall in IH.
      apply (IH (name, c)) in Hq' as [[d Hd] Hund];
        [|done|by apply (well_formed_entries es (name, c))].
      split; [|by constructor].
      exists d. cbn [resolve].
      by rewrite (entry_NoDup name es c (proj1 Hwf) Hin).
    + intros [[d Hd] Hund]. destruct q as [|name q']; [done|].
      cbn [resolve] in Hd.
      destruct (entry name es) as [c|] eqn:Ec; [|done].
      apply entry_Some in Ec. apply Forall_cons in Hund as [Hdot Hund].
      exists name, c, q'. repeat split; try done.
      rewrite Forall_forall in IH.
      apply (IH (name, c)); [done| |].
      * by apply (well_formed_entries es (name, c)).
      * split; [by exists d|done].
Qed.

Lemma matches_NoDup n : well_formed n → NoDup (matches n).
Proof.
  induction n as [data|es IH] using node_ind'; intros Hwf.
  - cbn [matches]. apply NoDup_singleton.
  - destruct Hwf as [Hnd Hall]. cbn [matches].
    induction es as [|[name c] es IHes]; [constructor|].
    cbn [flat_map fst snd map] in *.
    apply NoDup_cons in Hnd as [Hnin Hnd]. destruct Hall as [Hc Hall].
    apply Forall_cons in IH as [IHc IH].
    apply NoDup_app. split; [|split].
    + destruct (dot_name name); [constructor|].
      apply (NoDup_fmap_2 (cons name)). by apply IHc.
    + intros q Hq Hq'.
      assert (∃ q', q = name :: q') as [q' ->].
      { destruct (dot_name name); [by apply elem_of_nil in Hq|].
        apply list_elem_of_In, in_map_iff in Hq as (q' & <- & _).
        by eexists. }
      apply (matches_dir es) in Hq' as (n' & c' & q'' & Hin & _ & [= <- _] & _).
      apply Hnin, list_elem_of_In, in_map_iff.
      exists (name, c'). split; [done|]. by apply list_elem_of_In.
    + by apply IHes.
Qed.

(** What [glob] lists for a literal root: each regular file strictly
    below the root that is reached through names without a leading dot,
    once. *)
Lemma glob_spec mirror root :
  well_formed mirror →
  NoDup (glob mirror root)
  ∧ ∀ p, p ∈ glob mirror root ↔
      ∃ q, p = (root ++ q)%list ∧ q ≠ [] ∧ is_file mirror p ∧ undotted q.
Proof.
  intros Hwf. unfold glob.
  destruct (resolve mirror root) as [[data|es]|] eqn:Eroot.
  - split; [constructor|]. intros p. split; [by intros ?%elem_of_nil|].
    intros (q & -> & Hq & [d Hd] & _). rewrite resolve_app, Eroot in Hd.
    by destruct q.
  - assert (Hwf' : well_formed (Dir es)) by by eapply well_formed_resolve.
    split.
    + apply (NoDup_fmap_2 (app root)). by apply matches_NoDup.
    + intros p. rewrite list_elem_of_In, in_map_iff. split.
      * intros (q & <- & Hq%list_elem_of_In%matches_spec); [|done].
        destruct Hq as [[d Hd] Hund]. exists q.
        split; [done|]. split; [by intros ->|]. split; [|done].
        exists d. by rewrite resolve_app, Eroot.
      * intros (q & -> & _ & [d Hd] & Hund).
        rewrite resolve_app, Eroot in Hd. exists q. split; [done|].
        apply list_elem_of_In, matches_spec; [done|].
        split; [by exists d|done].
  - split; [constructor|]. intros p. split; [by intros ?%elem_of_nil|].
    intros (q & -> & _ & [d Hd] & _). by rewrite resolve_app, Eroot in Hd.
Qed.

End TreeFacts.

(** ** The scan *)

Lemma NoDup_fmap_same {A B} (f : A → B) (l : list A) x y :
  NoDup (f <$> l) → x ∈ l → y ∈ l → f x = f y → x = y.
Proof.
  induction l as [|a l IH]; [by intros _ ?%elem_of_nil|].
  rewrite fmap_cons, NoDup_cons. intros [Hnin Hnd].
  intros [->|Hx]%elem_of_cons [->|Hy]%elem_of_cons Heq; auto.
  - destruct Hnin. rewrite Heq. by apply list_elem_of_fmap_2.
  - destruct Hnin. rewrite <- Heq. by apply list_elem_of_fmap_2.
Qed.

Section KnowledgeFacts.
Import Mirror Tree Knowledge.
Context {H : Host}.
Context (config : Config) (mirror : node).

Lemma up_to_date_stored s k h :
  up_to_date (getMemoryById s k) h = bool_decide (stored_hash s k = Some h).
Proof.
  unfold up_to_date, stored_hash.
  destruct (getMemoryById s k) as [doc|]; [done|].
  by rewrite bool_decide_eq_false_2.
Qed.

(** One iteration of the loop, by what is on disk and in the store. *)
Lemma process_file_cases file st :
  process_file config mirror file st =
    match resolve mirror file with
    | Some (File (Some bytes)) =>
        if bool_decide (stored_hash (store st) (file_id config file)
                        = Some (fingerprint bytes))
        then (Fulfilled (), st)
        else (Fulfilled (), upserted config file bytes st)
    | _ => (Rejected (ReadFailed file), st)
    end.
Proof.
  unfold process_file, fs_readFile, bind.
  destruct (resolve mirror file) as [[[bytes|]|es]|]; try done.
  cbn. rewrite up_to_date_stored.
  fold (fingerprint bytes). fold (file_id config file).
  by destruct (bool_decide _).
Qed.

Lemma process_files_cons file rest st :
  process_files config mirror (file :: rest) st =
    match process_file config mirror file st with
    | (Fulfilled _, st') => process_files config mirror rest st'
    | (Rejected e, st') => (Rejected e, st')
    end.
Proof. reflexivity. Qed.

Lemma process_files_app pre post st :
  process_files config mirror (pre ++ post) st =
    match process_files config mirror pre st with
    | (Fulfilled _, st') => process_files config mirror post st'
    | (Rejected e, st') => (Rejected e, st')
    end.
Proof.
  revert st. induction pre as [|f pre IH]; intros st; [done|].
  rewrite <- app_comm_cons, !process_files_cons.
  destruct (process_file config mirror f st) as [[[]|e] st']; [apply IH|done].
Qed.

Lemma fresh_hash_Some file h :
  fresh_hash mirror file = Some h →
  ∃ bytes, resolve mirror file = Some (File (Some bytes))
           ∧ h = fingerprint bytes.
Proof.
  unfold fresh_hash.
  destruct (resolve mirror file) as [[[bytes|]|es]|]; try done.
  intros [= <-]. by eexists.
Qed.

Lemma fresh_hash_None file :
  fresh_hash mirror file = None →
  process_file config mirror file = throw (ReadFailed file).
Proof.
  unfold fresh_hash. intros Hn.
  unfold process_file, fs_readFile.
  by destruct (resolve mirror file) as [[[bytes|]|es]|].
Qed.

(** A scan over readable files runs to its end. *)
Lemma process_files_readable files st :
  Forall (readable mirror) files →
  (process_files config mirror files st).1 = Fulfilled ().
Proof.
  intros Hall. revert st.
  induction Hall as [|f files [h Hf] _ IH]; intros st; [done|].
  rewrite process_files_cons, process_file_cases.
  apply fresh_hash_Some in Hf as (bytes & -> & _).
  destruct (bool_decide _); apply IH.
Qed.

(** C2 (as amended). The fingerprint stored with a record is the SHA-256
    digest, in hex, of the UTF-8 encoding of the text that the file's
    bytes decode to. Byte-identical files get the same fingerprint; for a
    file that is well-formed UTF-8 this is the digest of its raw bytes;
    two files with the same fingerprint decode to the same text, or the
    digest collides on their re-encoded texts; two well-formed files with
    the same fingerprint have the same bytes, or the digest collides on
    them. *)
Theorem fingerprint_digests_decoded_text (bytes other : list byte) :
  fingerprint bytes = sha256_hex (Utf8.encode (Utf8.decode bytes))
  ∧ (∀ file st,
       resolve mirror file = Some (File (Some bytes)) →
       stored_hash (store st) (file_id config file)
         ≠ Some (fingerprint bytes) →
       process_file config mirror file st
         = (Fulfilled (), upserted config file bytes st)
       ∧ hash (content (item_of config file bytes))
         = Some (fingerprint bytes))
  ∧ (bytes = other → fingerprint bytes = fingerprint other)
  ∧ (Utf8.well_formed bytes → fingerprint bytes = spec_fingerprint bytes)
  ∧ (fingerprint bytes = fingerprint other →
       Utf8.decode bytes = Utf8.decode other
       ∨ digest_collision (Utf8.encode (Utf8.decode bytes))
           (Utf8.encode (Utf8.decode other)))
  ∧ (Utf8.well_formed bytes → Utf8.well_formed other →
     fingerprint bytes = fingerprint other →
       bytes = other ∨ digest_collision bytes other).
Proof.
  split; [done|]. split.
  { intros file st Hres Hne. split; [|done].
    rewrite process_file_cases, Hres. by rewrite bool_decide_eq_false_2. }
  split; [by intros ->|]. split.
  { intros Hwf. unfold fingerprint, contentHash_of.
    by rewrite encode_decode_well_formed. }
  split.
  - intros Heq.
    destruct (decide (Utf8.encode (Utf8.decode bytes)
                      = Utf8.encode (Utf8.decode other))) as [He|Hne].
    + left. by apply encode_decoded_inj.
    + right. by split.
  - intros Hb Ho Heq. unfold fingerprint, contentHash_of in Heq.
    rewrite !encode_decode_well_formed in Heq by done.
    destruct (decide (bytes = other)) as [He|Hne]; [by left|].
    right. by split.
Qed.

Lemma scanned_files_glob :
  scanned_files config mirror = glob mirror (scan_root config).
Proof. unfold scanned_files, scan_root. by destruct (bool_decide _). Qed.

(** C6 (as amended). The path of the mirror and the path filter are
    spliced into the pattern handed to [glob]. When neither holds a
    character that glob gives a meaning of its own, and the filter, once
    [path.join] has normalised it, does not climb out of the mirror with
    [..], then in a working tree of directories and regular files the
    scan lists, once each, exactly the regular files that lie strictly
    below the scan root (the normalised path filter inside the mirror,
    or the mirror itself when the filter is empty) and are reached from
    it through names that do not begin with a dot. Directories are not
    listed; dot files and everything inside dot directories are left
    out. *)
Theorem scan_lists_undotted_files (cwd : string) :
  plain (repoPath cwd config) = true →
  plain (path config) = true →
  ".." ∉ scan_root config →
  well_formed mirror →
  NoDup (scanned_files config mirror)
  ∧ ∀ p, p ∈ scanned_files config mirror ↔
      ∃ q, p = scan_root config ++ q ∧ q ≠ []
           ∧ is_file mirror p ∧ undotted q.
Proof. intros _ _ _. rewrite scanned_files_glob. apply glob_spec. Qed.

(** C4 (as amended). The scan stops at the first listed file that cannot
    be read: the files listed before it are handled as usual, the read
    failure of that file is what the whole scan rejects with, and neither
    that file nor any file listed after it is looked up or set. *)
Theorem scan_stops_at_unreadable_file (pre post : list fpath)
    (file : fpath) (st : Scan) :
  scanned_files config mirror = (pre ++ file :: post)%list →
  Forall (readable mirror) pre →
  ¬ readable mirror file →
  let before := process_files config mirror pre (started st) in
  before.1 = Fulfilled ()
  ∧ createMemoriesFromFiles config mirror st
    = (Rejected (ReadFailed file), before.2).
Proof.
  intros Hfiles Hpre Hfile before.
  assert (Hb : before.1 = Fulfilled ()) by by apply process_files_readable.
  split; [done|].
  change (createMemoriesFromFiles config mirror st)
    with (process_files config mirror (scanned_files config mirror)
            (started st)).
  rewrite Hfiles, process_files_app. fold before.
  destruct before as [[[]|e] st']; [|done].
  rewrite process_files_cons, fresh_hash_None; [done|].
  by apply eq_None_not_Some.
Qed.

(** C9. The identifier is computed from the plain concatenation
    "github-" owner "-" repo "-" relative path, so two different
    (owner, repo) pairs can give one identifier for the same relative
    path, whatever [stringToUuid] is: owner "a" with repo "b-c", and
    owner "a-b" with repo "c". Both then read and write the same
    record. *)
Theorem knowledgeId_not_injective (relativePath : string) :
  let one := {| owner := "a"; repo := "b-c"; branch := "main";
                path := ""; token := "" |} in
  let other := {| owner := "a-b"; repo := "c"; branch := "main";
                  path := ""; token := "" |} in
  (owner one, repo one, relativePath) ≠ (owner other, repo other, relativePath)
  ∧ knowledgeKey one relativePath = knowledgeKey other relativePath
  ∧ knowledgeId_of one relativePath = knowledgeId_of other relativePath
  ∧ (∀ s, getMemoryById s (knowledgeId_of one relativePath)
          = getMemoryById s (knowledgeId_of other relativePath))
  ∧ (∀ s item, id item = knowledgeId_of one relativePath →
       knowledge_set s item
       = knowledge_set s
           {| id := knowledgeId_of other relativePath;
              content := content item |}).
Proof.
  intros one other.
  assert (Hkey : knowledgeKey one relativePath
                 = knowledgeKey other relativePath) by reflexivity.
  assert (Hid : knowledgeId_of one relativePath
                = knowledgeId_of other relativePath).
  { unfold knowledgeId_of. by rewrite Hkey. }
  split; [discriminate|]. split; [done|]. split; [done|].
  split; [by intros s; rewrite Hid|].
  intros s [i c] Hi. cbn in *. by rewrite <- Hid, Hi.
Qed.

Section WithKeyedStore.
Context {HS : KeyedStore H}.

Lemma stored_hash_upserted file bytes st k :
  stored_hash (store (upserted config file bytes st)) k =
    if decide (k = file_id config file) then Some (fingerprint bytes)
    else stored_hash (store st) k.
Proof.
  unfold stored_hash, upserted. cbn [store].
  destruct (decide (k = file_id config file)) as [->|Hne].
  - change (file_id config file) with (id (item_of config file bytes)).
    by rewrite get_set_same.
  - by rewrite get_set_other.
Qed.

(** A fingerprint stored under an identifier survives the scan of
    files that, if they share the identifier, share the fingerprint. *)
Lemma stored_hash_preserved files k h st :
  (∀ g, g ∈ files → file_id config g = k →
        ∀ hg, fresh_hash mirror g = Some hg → hg = h) →
  stored_hash (store st) k = Some h →
  stored_hash (store (process_files config mirror files st).2) k = Some h.
Proof.
  revert st. induction files as [|f files IH]; intros st Hsame Hk; [done|].
  rewrite process_files_cons, process_file_cases.
  assert (Hrest : ∀ g, g ∈ files → file_id config g = k →
            ∀ hg, fresh_hash mirror g = Some hg → hg = h).
  { intros g Hg. apply Hsame. by right. }
  destruct (resolve mirror f) as [[[bytes|]|es]|] eqn:Ef; try done.
  destruct (bool_decide _); [by apply IH|].
  apply IH; [done|]. rewrite stored_hash_upserted.
  destruct (decide _) as [->|]; [|done].
  f_equal. apply (Hsame f); [by left|done|].
  unfold fresh_hash. by rewrite Ef.
Qed.

(** After a scan, a second scan of the same files finds nothing to
    do. *)
Lemma process_files_settled files st st2 :
  consistent_ids config mirror files →
  store st2 = store (process_files config mirror files st).2 →
  process_files config mirror files st2 =
    ((process_files config mirror files st).1, st2).
Proof.
  revert st. induction files as [|f files IH]; intros st Hcons Hst2;
    [done|].
  assert (Hcons' : consistent_ids config mirror files).
  { intros a b Ha Hb. apply Hcons; by right. }
  rewrite !process_files_cons, !process_file_cases in *.
  destruct (resolve mirror f) as [[[bytes|]|es]|] eqn:Ef; try done.
  assert (Hf : fresh_hash mirror f = Some (fingerprint bytes)).
  { unfold fresh_hash. by rewrite Ef. }
  assert (Hkeep : ∀ st1,
    stored_hash (store st1) (file_id config f) = Some (fingerprint bytes) →
    store st2 = store (process_files config mirror files st1).2 →
    stored_hash (store st2) (file_id config f) = Some (fingerprint bytes)).
  { intros st1 H1 ->. apply stored_hash_preserved; [|done].
    intros g Hg Hid hg Hhg.
    assert (fresh_hash mirror g = fresh_hash mirror f) as Heq.
    { apply Hcons; [by right|by left|done]. }
    congruence. }
  destruct (bool_decide _) eqn:Eb.
  - apply bool_decide_eq_true in Eb.
    rewrite bool_decide_eq_true_2 by (by apply (Hkeep st)).
    by apply IH.
  - rewrite bool_decide_eq_true_2.
    + by apply IH.
    + apply (Hkeep (upserted config f bytes st)); [|done].
      rewrite stored_hash_upserted. by rewrite decide_True.
Qed.

Lemma stale_upserted file bytes st g :
  file_id config g ≠ file_id config file →
  stale config mirror (store (upserted config file bytes st)) g
  ↔ stale config mirror (store st) g.
Proof.
  intros Hne. unfold stale. rewrite stored_hash_upserted.
  by rewrite decide_False.
Qed.

Lemma filter_stale_upserted file bytes st (files : list fpath) :
  file_id config file ∉ file_id config <$> files →
  filter (stale config mirror (store (upserted config file bytes st)))
    files
  = filter (stale config mirror (store st)) files.
Proof.
  induction files as [|g files IH]; [done|].
  rewrite fmap_cons, not_elem_of_cons. intros [Hne Hnin].
  rewrite !filter_cons, IH by done.
  destruct (decide (stale _ _ (store st) g)) as [Hs|Hs].
  - rewrite decide_True; [done|]. by apply stale_upserted.
  - rewrite decide_False; [done|]. by rewrite stale_upserted.
Qed.

(** A scan over readable files with pairwise different identifiers:
    it sets the records of the files that are stale in the store it
    starts from, in scan order, brings their stored fingerprints up to
    date, and leaves every other identifier as it was. *)
Lemma process_files_stale (files : list fpath) st :
  Forall (readable mirror) files →
  NoDup (file_id config <$> files) →
  let run := process_files config mirror files st in
  let stale_files := filter (stale config mirror (store st)) files in
  run.1 = Fulfilled ()
  ∧ id <$> upserts run.2
    = ((id <$> upserts st) ++ (file_id config <$> stale_files))%list
  ∧ (∀ k, k ∉ file_id config <$> stale_files →
       getMemoryById (store run.2) k = getMemoryById (store st) k)
  ∧ (∀ f, f ∈ files →
       stored_hash (store run.2) (file_id config f) = fresh_hash mirror f).
Proof.
  intros Hall. revert st.
  induction Hall as [|f files [h Hf] Hall IH]; intros st Hnd; cbn zeta.
  { split; [done|]. split; [by rewrite app_nil_r|]. split; [done|].
    intros f Hin. by apply elem_of_nil in Hin. }
  rewrite fmap_cons, NoDup_cons in Hnd. destruct Hnd as [Hnin Hnd].
  rewrite process_files_cons, process_file_cases.
  pose proof Hf as Hf'.
  apply fresh_hash_Some in Hf' as (bytes & Hres & ->). rewrite Hres.
  rewrite filter_cons.
  destruct (bool_decide _) eqn:Eb.
  - apply bool_decide_eq_true in Eb.
    rewrite decide_False by (unfold stale; congruence).
    destruct (IH st Hnd) as (Hok & Hups & Hkeep & Hnew).
    split; [done|]. split; [done|]. split; [done|].
    intros g [Hgf|Hg]%elem_of_cons; [subst g|by apply Hnew].
    unfold stored_hash. rewrite Hkeep.
    + fold (stored_hash (store st) (file_id config f)). congruence.
    + intros (g' & Hid & Hin%list_elem_of_filter)%list_elem_of_fmap.
      apply Hnin. rewrite Hid. apply list_elem_of_fmap_2. tauto.
  - apply bool_decide_eq_false in Eb.
    rewrite decide_True by (unfold stale; congruence).
    destruct (IH (upserted config f bytes st) Hnd)
      as (Hok & Hups & Hkeep & Hnew).
    rewrite filter_stale_upserted in Hups, Hkeep by done.
    split; [done|]. split.
    { rewrite Hups. cbn [upserts upserted].
      rewrite fmap_app, fmap_cons, <- app_assoc. done. }
    split.
    { intros k Hk. rewrite fmap_cons, not_elem_of_cons in Hk.
      destruct Hk as [Hkf Hk]. rewrite Hkeep by done.
      cbn [store upserted]. by rewrite get_set_other. }
    intros g [Hgf|Hg]%elem_of_cons; [subst g|by apply Hnew].
    unfold stored_hash. rewrite Hkeep.
    + fold (stored_hash (store (upserted config f bytes st))
              (file_id config f)).
      rewrite stored_hash_upserted, decide_True by done. congruence.
    + intros (g' & Hid & Hin%list_elem_of_filter)%list_elem_of_fmap.
      apply Hnin. rewrite Hid. apply list_elem_of_fmap_2. tauto.
Qed.

(** What the loop is written for. Over a store in which a record that
    was set replaces the one under its identifier ([KeyedStore]), and
    with files that share their fingerprint when they share an
    identifier, scanning the same mirror twice in a row sets no record
    in the second pass, leaves the store as the first pass left it, and
    ends as the first pass ended. At each file, a stored record whose
    fingerprint equals the fresh one makes the loop go on to the next
    file without touching anything. *)
Theorem rescan_upserts_nothing (st : Scan) :
  consistent_ids config mirror (scanned_files config mirror) →
  let first := createMemoriesFromFiles config mirror st in
  let second :=
    createMemoriesFromFiles config mirror (fresh (store first.2)) in
  upserts second.2 = []
  ∧ store second.2 = store first.2
  ∧ second.1 = first.1
  ∧ (∀ file bytes st',
       resolve mirror file = Some (File (Some bytes)) →
       stored_hash (store st') (file_id config file)
         = Some (fingerprint bytes) →
       process_file config mirror file st' = (Fulfilled (), st')).
Proof.
  intros Hcons first second.
  assert (Hsecond : second =
    (first.1, started (fresh (store first.2)))).
  { subst second first.
    change (createMemoriesFromFiles config mirror ?x)
      with (process_files config mirror (scanned_files config mirror)
              (started x)).
    by apply process_files_settled. }
  rewrite Hsecond. cbn [fst snd started fresh upserts store].
  repeat split.
  intros file bytes st' Hres Hst.
  rewrite process_file_cases, Hres. by rewrite bool_decide_eq_true_2.
Qed.


End WithKeyedStore.

Section WithKeepingStore.
Context {HK : KeepingStore H}.

Lemma stored_hash_apart file bytes st k :
  k ≠ file_id config file →
  stored_hash (store (upserted config file bytes st)) k
  = stored_hash (store st) k.
Proof.
  intros Hne. unfold stored_hash, upserted. cbn [store].
  by rewrite get_set_apart.
Qed.

Lemma filter_stale_apart file bytes st (files : list fpath) :
  file_id config file ∉ file_id config <$> files →
  filter (stale config mirror (store (upserted config file bytes st)))
    files
  = filter (stale config mirror (store st)) files.
Proof.
  induction files as [|g files IH]; [done|].
  rewrite fmap_cons, not_elem_of_cons. intros [Hne Hnin].
  rewrite !filter_cons, IH by done.
  assert (Hg : stale config mirror (store (upserted config file bytes st)) g
               ↔ stale config mirror (store st) g).
  { unfold stale. by rewrite stored_hash_apart. }
  destruct (decide (stale _ _ (store st) g)) as [Hs|Hs].
  - rewrite decide_True; [done|]. by apply Hg.
  - rewrite decide_False; [done|]. by rewrite Hg.
Qed.

(** A scan over readable files with pairwise different identifiers,
    over the store of the host: the files that are stale in the store it
    starts from are handed to [knowledge.set], in scan order; no record
    that was in the store changes; a file without a record gets one
    with its fresh fingerprint. *)
Lemma process_files_keeping (files : list fpath) st :
  Forall (readable mirror) files →
  NoDup (file_id config <$> files) →
  let run := process_files config mirror files st in
  run.1 = Fulfilled ()
  ∧ id <$> upserts run.2
    = ((id <$> upserts st)
       ++ (file_id config <$> filter (stale config mirror (store st)) files))
      %list
  ∧ (∀ k, is_Some (getMemoryById (store st) k) →
       getMemoryById (store run.2) k = getMemoryById (store st) k)
  ∧ (∀ f, f ∈ files →
       getMemoryById (store st) (file_id config f) = None →
       stored_hash (store run.2) (file_id config f) = fresh_hash mirror f).
Proof.
  intros Hall. revert st.
  induction Hall as [|f files [h Hf] Hall IH]; intros st Hnd; cbn zeta.
  { split; [done|]. split; [by rewrite app_nil_r|]. split; [done|].
    intros f Hin. by apply elem_of_nil in Hin. }
  rewrite fmap_cons, NoDup_cons in Hnd. destruct Hnd as [Hnin Hnd].
  rewrite process_files_cons, process_file_cases.
  pose proof Hf as Hf'.
  apply fresh_hash_Some in Hf' as (bytes & Hres & ->). rewrite Hres.
  rewrite filter_cons.
  destruct (bool_decide _) eqn:Eb.
  - apply bool_decide_eq_true in Eb.
    rewrite decide_False by (unfold stale; congruence).
    destruct (IH st Hnd) as (Hok & Hups & Hkeep & Hnew).
    split; [done|]. split; [done|]. split; [done|].
    intros g [->|Hg]%elem_of_cons Hnone; [|by apply Hnew].
    unfold stored_hash in Eb. by rewrite Hnone in Eb.
  - apply bool_decide_eq_false in Eb.
    rewrite decide_True by (unfold stale; congruence).
    destruct (IH (upserted config f bytes st) Hnd)
      as (Hok & Hups & Hkeep & Hnew).
    rewrite filter_stale_apart in Hups by done.
    split; [done|]. split.
    { rewrite Hups. cbn [upserts upserted].
      rewrite fmap_app, fmap_cons, <- app_assoc. done. }
    split.
    { intros k Hk.
      assert (Hsame : getMemoryById (store (upserted config f bytes st)) k
                      = getMemoryById (store st) k).
      { cbn [store upserted]. by apply get_set_kept. }
      rewrite Hkeep; [done|]. by rewrite Hsame. }
    intros g [->|Hg]%elem_of_cons Hnone.
    + assert (Hset : getMemoryById (store (upserted config f bytes st))
                       (file_id config f)
                     = Some (item_of config f bytes)).
      { cbn [store upserted].
        change (file_id config f) with (id (item_of config f bytes)).
        by apply get_set_created. }
      unfold stored_hash. rewrite Hkeep by (by rewrite Hset).
      by rewrite Hset, Hf.
    + apply Hnew; [done|]. cbn [store upserted].
      rewrite get_set_apart; [done|].
      intros Heq. apply Hnin.
      change (id (item_of config f bytes)) with (file_id config f) in Heq.
      rewrite <- Heq. by apply list_elem_of_fmap_2.
Qed.

Lemma filter_agree {A} (P Q : A → Prop) `{!∀ x, Decision (P x)}
    `{!∀ x, Decision (Q x)} (l : list A) :
  (∀ x, x ∈ l → P x ↔ Q x) → filter P l = filter Q l.
Proof.
  induction l as [|a l IH]; intros Hpq; [done|].
  rewrite !filter_cons, IH by (intros x Hx; apply Hpq; by right).
  destruct (decide (P a)) as [Hp|Hp].
  - rewrite decide_True; [done|]. apply Hpq; [by left|done].
  - rewrite decide_False; [done|]. intros Hq. apply Hp.
    apply Hpq; [by left|done].
Qed.

(** C1. Over the store of the host, where [knowledge.set] leaves an
    existing record as it is, a second scan of the same mirror does set
    records: it hands to [knowledge.set], again and in scan order,
    exactly the files whose record was in the store before the first
    scan with another fingerprint than the fresh one. Their records are
    what they were before the first scan, so every later scan does the
    same. (Files without a record before the first scan, and files
    whose record had the fresh fingerprint, are passed over by the
    second scan.) *)
Theorem rescan_sets_changed_files_again (s : Store) :
  let files : list fpath := scanned_files config mirror in
  Forall (readable mirror) files →
  NoDup (file_id config <$> files) →
  let first := createMemoriesFromFiles config mirror (fresh s) in
  let second :=
    createMemoriesFromFiles config mirror (fresh (store first.2)) in
  second.1 = Fulfilled ()
  ∧ id <$> upserts second.2
    = file_id config <$> filter (outdated config mirror s) files
  ∧ (∀ k, is_Some (getMemoryById s k) →
       getMemoryById (store second.2) k = getMemoryById s k).
Proof.
  intros files Hread Hnd first second.
  destruct (process_files_keeping files (started (fresh s)) Hread Hnd)
    as (_ & _ & Hkeep1 & Hnew1).
  destruct (process_files_keeping files (started (fresh (store first.2)))
              Hread Hnd) as (Hok2 & Hups2 & Hkeep2 & _).
  change (process_files config mirror files (started (fresh s)))
    with first in Hkeep1, Hnew1.
  change (process_files config mirror files
            (started (fresh (store first.2)))) with second
    in Hok2, Hups2, Hkeep2.
  cbn [store started fresh upserts] in *.
  split; [exact Hok2|]. split.
  - rewrite Hups2. cbn [fmap list_fmap app]. f_equal.
    apply filter_agree. intros f Hf. unfold outdated, stale, stored_hash.
    destruct (getMemoryById s (file_id config f)) as [doc|] eqn:Es.
    + rewrite Hkeep1 by (by rewrite Es). rewrite Es.
      split; [by split|by intros [_ ?]].
    + specialize (Hnew1 f Hf Es). unfold stored_hash in Hnew1.
      rewrite Hnew1. split; [done|]. by intros [[? [=]] _].
  - intros k Hk. rewrite Hkeep2 by (by rewrite Hkeep1).
    by apply Hkeep1.
Qed.

End WithKeepingStore.

End KnowledgeFacts.

(** ** Write-back *)

Section WriteBackFacts.
Import Mirror WriteBack.
Context (config : Config) (remote : Remote).

Lemma write_files_accepted files r :
  writes_accepted (writable r) files (worktree r) = true →
  write_files files r
  = (Fulfilled (), with_worktree (apply_edits files (worktree r)) r).
Proof.
  revert r. induction files as [|f files IH]; intros r Hok; [by destruct r|].
  cbn [writes_accepted] in Hok. apply andb_true_iff in Hok as [Hf Hrest].
  cbn [write_files]. unfold bind, write_file. rewrite Hf.
  by rewrite IH.
Qed.

Lemma write_files_refused files r :
  writes_accepted (writable r) files (worktree r) = false →
  ∃ k file,
    files !! k = Some file
    ∧ write_files files r
      = (Rejected (WriteFailed (file_path file)),
         with_worktree (apply_edits (take k files) (worktree r)) r).
Proof.
  revert r. induction files as [|f files IH]; intros r Hno; [done|].
  cbn [writes_accepted] in Hno. cbn [write_files]. unfold bind, write_file.
  destruct (writable r (worktree r) (file_path f)) eqn:Hf.
  - destruct (IH (with_worktree
                    (<[file_path f := file_content f]> (worktree r)) r) Hno)
      as (k & file & Hk & Hrun).
    exists (S k), file. split; [done|]. by rewrite Hrun.
  - exists 0%nat, f. split; [done|]. by destruct r.
Qed.



(** The state after the edits were written and staged and the commit
    was asked for. *)
Lemma staged_state files msg r :
  writes_accepted (writable r) files (worktree r) = true →
  (await_ write_files files; await_ git_add_dot; git_commit remote msg)%eff r
  = if decide (staged files r = committed r)
    then (Fulfilled (), prepared files r)
    else if commit_ok remote then
      (Fulfilled (),
       with_history
         ({| message := msg; snapshot := staged files r |} :: history r)
         (prepared files r))
    else (Rejected (GitFailed "commit"), prepared files r).
Proof.
  intros Hok. unfold bind. rewrite write_files_accepted by done.
  unfold git_add_dot, git_commit. cbn -[decide].
  change (stage _ _ _) with (staged files r).
  change (default ∅ _) with (committed r).
  destruct (decide _); [done|]. by destruct (commit_ok remote).
Qed.

Lemma refused_state files msg r :
  writes_accepted (writable r) files (worktree r) = false →
  ∃ k file,
    files !! k = Some file
    ∧ (await_ write_files files; await_ git_add_dot;
       git_commit remote msg)%eff r
      = (Rejected (WriteFailed (file_path file)),
         with_worktree (apply_edits (take k files) (worktree r)) r).
Proof.
  intros Hno. destruct (write_files_refused files r Hno)
    as (k & file & Hk & Hrun).
  exists k, file. split; [done|]. unfold bind. by rewrite Hrun.
Qed.

Lemma createCommit_unfold msg files r :
  createCommit remote msg files r
  = match (await_ write_files files; await_ git_add_dot;
           git_commit remote msg)%eff r with
    | (Fulfilled _, r') => git_push remote None r'
    | (Rejected e, r') => (Rejected e, r')
    end.
Proof.
  unfold createCommit, bind.
  destruct (write_files files r) as [[[]|?] r1]; [|done].
  unfold git_add_dot. by destruct (git_commit remote msg _) as [[[]|?] ?].
Qed.

Lemma createPullRequest_unfold title b files description r :
  branches r !! b = None →
  createPullRequest config remote title b files description r
  = match (await_ write_files files; await_ git_add_dot;
           git_commit remote title)%eff (branched b r) with
    | (Fulfilled _, r1) =>
        match git_push remote (Some ("origin", b)) r1 with
        | (Fulfilled _, r2) =>
            octokit_pulls_create remote
              {| pr_owner := owner config;
                 pr_repo := repo config;
                 pr_title := title;
                 pr_body := or_else (default "" description) title;
                 pr_head := b;
                 pr_base := or_else (branch config) "main" |} r2
        | (Rejected e, r2) => (Rejected e, r2)
        end
    | (Rejected e, r1) => (Rejected e, r1)
    end.
Proof.
  intros Hb. unfold createPullRequest, bind at 1, git_checkout_b.
  rewrite Hb. unfold bind.
  destruct (write_files files _) as [[[]|?] r0]; [|done].
  unfold git_add_dot.
  destruct (git_commit remote title _) as [[[]|?] r1]; [|done].
  destruct (git_push remote _ r1) as [[[]|?] r2]; [|done].
  unfold ret. by destruct (octokit_pulls_create remote _ r2) as [[?|?] ?].
Qed.

(** The new branch starts where the old one stood. *)
Lemma branched_start b r :
  history (branched b r) = history r
  ∧ committed (branched b r) = committed r
  ∧ (∀ files, staged files (branched b r) = staged files r)
  ∧ (∀ c, b ≠ c → branches (branched b r) !! c = branches r !! c).
Proof.
  assert (Hh : history (branched b r) = history r).
  { unfold history, branched. cbn [current branches].
    by rewrite lookup_insert_eq. }
  split; [done|]. split; [unfold committed, head_snapshot; by rewrite Hh|].
  split; [done|]. intros c Hc. unfold branched. cbn [branches].
  by rewrite lookup_insert_ne.
Qed.

(** The mirror with the edits written, staged and committed, part by
    part. *)
Lemma settled_spec msg files r :
  let r2 := settled msg files r in
  worktree r2 = apply_edits files (worktree r)
  ∧ index r2 = staged files r
  ∧ current r2 = current r
  ∧ sent r2 = sent r
  ∧ tracking r2 = tracking r
  ∧ committed r2 = staged files r
  ∧ (∀ b, b ≠ current r → branches r2 !! b = branches r !! b)
  ∧ (staged files r = committed r →
       branches r2 = branches r ∧ history r2 = history r)
  ∧ (staged files r ≠ committed r →
       history r2
       = {| message := msg; snapshot := staged files r |} :: history r).
Proof.
  unfold settled. destruct (decide (staged files r = committed r)) as [Hs|Hs].
  - do 5 (split; [done|]). split; [by rewrite Hs|]. split; [done|].
    split; [done|]. by intros [].
  - do 5 (split; [done|]).
    assert (Hh : history
                   (with_history
                      ({| message := msg; snapshot := staged files r |}
                       :: history r) (prepared files r))
                 = {| message := msg; snapshot := staged files r |}
                   :: history r).
    { unfold history, with_history. cbn [current branches].
      by rewrite lookup_insert_eq. }
    split; [unfold committed, head_snapshot; by rewrite Hh|].
    split; [|split; [done|by intros _]].
    intros b Hb. unfold with_history. cbn [branches].
    by rewrite lookup_insert_ne.
Qed.

(** The ways a [createCommit] can go. *)
Lemma createCommit_runs msg files r :
  let done := createCommit remote msg files r in
  let r2 := settled msg files r in
  (∃ k file,
     writes_accepted (writable r) files (worktree r) = false
     ∧ files !! k = Some file
     ∧ done = (Rejected (WriteFailed (file_path file)),
               with_worktree (apply_edits (take k files) (worktree r)) r))
  ∨ (writes_accepted (writable r) files (worktree r) = true
     ∧ staged files r ≠ committed r ∧ commit_ok remote = false
     ∧ done = (Rejected (GitFailed "commit"), prepared files r))
  ∨ (writes_accepted (writable r) files (worktree r) = true
     ∧ (staged files r ≠ committed r → commit_ok remote = true)
     ∧ ¬ (current r ∈ tracking r ∧ push_ok remote (current r) = true)
     ∧ done = (Rejected (GitFailed "push"), r2))
  ∨ (writes_accepted (writable r) files (worktree r) = true
     ∧ (staged files r ≠ committed r → commit_ok remote = true)
     ∧ current r ∈ tracking r ∧ push_ok remote (current r) = true
     ∧ done = (Fulfilled (),
               with_sent (Pushed None (current r) (history r2)) r2)).
Proof.
  cbv zeta. rewrite createCommit_unfold.
  destruct (writes_accepted (writable r) files (worktree r)) eqn:Hw.
  2: { left. destruct (refused_state files msg r Hw) as (k & f & Hk & ->).
       by exists k, f. }
  right. rewrite staged_state by done.
  destruct (settled_spec msg files r) as (_ & _ & Hcur & _ & Htr & _).
  assert (Hpush : ∀ r2,
    current r2 = current r → tracking r2 = tracking r →
    (¬ (current r ∈ tracking r ∧ push_ok remote (current r) = true)
     ∧ git_push remote None r2 = (Rejected (GitFailed "push"), r2))
    ∨ (current r ∈ tracking r ∧ push_ok remote (current r) = true
       ∧ git_push remote None r2
         = (Fulfilled (), with_sent (Pushed None (current r) (history r2)) r2))).
  { intros r2 Hc Ht. unfold git_push. rewrite Hc, Ht.
    destruct (decide (current r ∈ tracking r)) as [Hin|Hin].
    - rewrite bool_decide_eq_true_2 by done.
      destruct (push_ok remote (current r)); [by right|left].
      split; [by intros [_ ?]|done].
    - rewrite bool_decide_eq_false_2 by done. left. split; [tauto|done]. }
  unfold settled in *.
  destruct (decide (staged files r = committed r)) as [Hs|Hs].
  - right. destruct (Hpush _ Hcur Htr) as [(Hno & ->)|(Hin & Hp & ->)].
    + left. by repeat split.
    + right. by repeat split.
  - destruct (commit_ok remote) eqn:Hc; [right|left; by repeat split].
    destruct (Hpush _ Hcur Htr) as [(Hno & ->)|(Hin & Hp & ->)].
    + left. by repeat split.
    + right. by repeat split.
Qed.

(** The ways a [createPullRequest] can go. *)
Lemma createPullRequest_runs title b files description r :
  let done := createPullRequest config remote title b files description r in
  let r2 := settled title files (branched b r) in
  let request :=
    {| pr_owner := owner config; pr_repo := repo config; pr_title := title;
       pr_body := or_else (default "" description) title;
       pr_head := b; pr_base := or_else (branch config) "main" |} in
  let pushed := with_sent (Pushed (Some ("origin", b)) b (history r2)) r2 in
  (is_Some (branches r !! b) ∧ done = (Rejected (GitFailed "checkout"), r))
  ∨ (branches r !! b = None
     ∧ ((∃ k file,
           writes_accepted (writable r) files (worktree r) = false
           ∧ files !! k = Some file
           ∧ done = (Rejected (WriteFailed (file_path file)),
                     with_worktree (apply_edits (take k files) (worktree r))
                       (branched b r)))
        ∨ (writes_accepted (writable r) files (worktree r) = true
           ∧ staged files r ≠ committed r ∧ commit_ok remote = false
           ∧ done = (Rejected (GitFailed "commit"),
                     prepared files (branched b r)))
        ∨ (writes_accepted (writable r) files (worktree r) = true
           ∧ (staged files r ≠ committed r → commit_ok remote = true)
           ∧ ((push_ok remote b = false
               ∧ done = (Rejected (GitFailed "push"), r2))
              ∨ (push_ok remote b = true
                 ∧ pulls_create remote request = None
                 ∧ done = (Rejected (RequestFailed request), pushed))
              ∨ (∃ pr,
                   push_ok remote b = true
                   ∧ pulls_create remote request = Some pr
                   ∧ done = (Fulfilled pr,
                             with_sent (PullRequested request) pushed)))))).
Proof.
  cbv zeta.
  destruct (branches r !! b) as [h|] eqn:Hb.
  { left. split; [by eexists|].
    unfold createPullRequest, bind, git_checkout_b. by rewrite Hb. }
  right. split; [done|]. rewrite createPullRequest_unfold by done.
  destruct (branched_start b r) as (Hh & Hc & Hst & _).
  destruct (writes_accepted (writable r) files (worktree r)) eqn:Hw.
  2: { left. destruct (refused_state files title (branched b r) Hw)
         as (k & f & Hk & ->). by exists k, f. }
  right. rewrite staged_state by done.
  destruct (settled_spec title files (branched b r))
    as (_ & _ & Hcur & _ & _ & _ & _ & _ & _).
  assert (Hpush : ∀ r2,
    current r2 = b → is_Some (branches r2 !! b) →
    git_push remote (Some ("origin", b)) r2
    = if push_ok remote b
      then (Fulfilled (),
            with_sent (Pushed (Some ("origin", b)) b (history r2)) r2)
      else (Rejected (GitFailed "push"), r2)).
  { intros r2 Hcb [commits Hcommits]. unfold git_push, history.
    by rewrite Hcb, Hcommits. }
  assert (Hthere : is_Some (branches (settled title files (branched b r))
                              !! b)).
  { unfold settled. destruct (decide _); cbn; rewrite ?lookup_insert_eq;
      by eexists. }
  rewrite <- Hst, <- Hc. unfold settled in *. rewrite Hst, Hc in *.
  destruct (decide (staged files r = committed r)) as [Hs|Hs].
  - right. split; [done|]. split; [done|].
    rewrite (Hpush _ Hcur Hthere).
    destruct (push_ok remote b); [|by left]. right.
    unfold octokit_pulls_create.
    destruct (pulls_create remote _) as [pr|] eqn:Epr; [right|by left].
    by exists pr.
  - destruct (commit_ok remote) eqn:Hco; [right|left; by repeat split].
    split; [done|]. split; [done|].
    rewrite (Hpush _ Hcur Hthere).
    destruct (push_ok remote b); [|by left]. right.
    unfold octokit_pulls_create.
    destruct (pulls_create remote _) as [pr|] eqn:Epr; [right|by left].
    by exists pr.
Qed.


End WriteBackFacts.

(** ** Concrete runs *)

(** C4, counterexample. The mirror lists [guides/a.md], which cannot be
    read, before [guides/b.md], which can and has no record yet. The scan
    rejects at the first file and sets nothing: the second file is never
    reached. *)
Lemma scan_aborts_on_unreadable_file :
  let H := Knowledge.map_host in
  let config := Knowledge.acme_docs in
  let mirror := Knowledge.mirror_with_unreadable in
  let a := ["guides"; "a.md"] in
  let b := ["guides"; "b.md"] in
  let run :=
    Knowledge.createMemoriesFromFiles config mirror (Knowledge.fresh ∅) in
  Knowledge.scanned_files config mirror = [a; b]
  ∧ ¬ Knowledge.readable mirror a
  ∧ Knowledge.readable mirror b
  ∧ Knowledge.stale config mirror ∅ b
  ∧ run.1 = Rejected (Knowledge.ReadFailed a)
  ∧ Knowledge.upserts run.2 = []
  ∧ Knowledge.store run.2 = ∅.
Proof.
  cbv zeta. split; [reflexivity|]. split.
  { intros [h Hh]. vm_compute in Hh. discriminate. }
  split; [by eexists|]. split; [by vm_compute|].
  split; [reflexivity|]. split; reflexivity.
Qed.

(** C6, counterexample. The mirror holds the regular files
    [guides/.draft.md] and [guides/.assets/logo.svg] below the path filter
    [guides], and [.git/HEAD] below its root. The scan of [guides] lists
    [guides/a.md] alone, and so does a scan with an empty path filter. *)
Lemma scan_misses_dot_files :
  let mirror := Knowledge.mirror_with_dotfiles in
  let config := Knowledge.acme_docs in
  let at_root := Knowledge.acme_docs_at_root in
  Tree.well_formed mirror
  ∧ Tree.is_file mirror ["guides"; ".draft.md"]
  ∧ Tree.is_file mirror ["guides"; ".assets"; "logo.svg"]
  ∧ Tree.is_file mirror [".git"; "HEAD"]
  ∧ Knowledge.scanned_files config mirror = [["guides"; "a.md"]]
  ∧ Knowledge.scanned_files at_root mirror = [["guides"; "a.md"]]
  ∧ (["guides"; ".draft.md"] ∉ Knowledge.scanned_files config mirror)
  ∧ ([".git"; "HEAD"] ∉ Knowledge.scanned_files at_root mirror).
Proof.
  cbv zeta. split.
  { cbn. repeat split; apply (bool_decide_unpack _); by vm_compute. }
  split; [by eexists|]. split; [by eexists|]. split; [by eexists|].
  split; [reflexivity|]. split; [reflexivity|].
  split; apply (bool_decide_unpack _); by vm_compute.
Qed.

(** C2, counterexample. The one-byte files FF and FE differ, both decode to
    the single character U+FFFD, and so the same three bytes EF BF BD are
    digested for both: whatever the digest function, they get the same
    fingerprint, and it is not the digest of their raw bytes that is
    computed. *)
Lemma fingerprint_same_for_different_bytes :
  [xff] ≠ [xfe]
  ∧ Utf8.decode [xff] = [0xFFFD%Z]
  ∧ Utf8.decode [xfe] = [0xFFFD%Z]
  ∧ Utf8.encode (Utf8.decode [xff]) = [xef; xbf; xbd]
  ∧ Utf8.encode (Utf8.decode [xfe]) = [xef; xbf; xbd]
  ∧ (∀ H : Knowledge.Host,
       Knowledge.fingerprint [xff] = Knowledge.fingerprint [xfe]
       ∧ Knowledge.fingerprint [xff] = Knowledge.sha256_hex [xef; xbf; xbd])
  ∧ Knowledge.fingerprint (H := Knowledge.map_host) [xff]
    ≠ Knowledge.spec_fingerprint (H := Knowledge.map_host) [xff].
Proof.
  split; [discriminate|]. split; [reflexivity|]. split; [reflexivity|].
  split; [reflexivity|]. split; [reflexivity|].
  split; [by intros H|]. by vm_compute.
Qed.


(** ** The theorems at work on the example data *)

(** The finite-map store is keyed by identifier. *)
Lemma map_host_keyed : Knowledge.KeyedStore Knowledge.map_host.
Proof.
  split; cbn; intros.
  - apply lookup_insert_eq.
  - by apply lookup_insert_ne.
Qed.

(** C8: the settings of the documentation mirror pass the check and come
    back unchanged. *)
Lemma validateGithubConfig_requires_all_five_witness :
  let runtime :=
    Environment.settings_of (Some "acme") (Some "docs") (Some "main")
      (Some "guides") (Some "secret") in
  Environment.accepted runtime ∧ ¬ Environment.rejected runtime.
Proof.
  intros runtime.
  destruct (validateGithubConfig_requires_all_five runtime)
    as (Hacc & Hrej & _).
  assert (Hall : Environment.all_five runtime).
  { repeat split; eexists; (split; [reflexivity|discriminate]). }
  split; [by apply Hacc|]. intros Hr. by apply Hrej in Hr.
Defined.

(** C3: against a remote that refuses twice, and against one that always
    refuses, starting from a blank disk. *)
Lemma cloneRepository_three_attempts_witness :
  (let done := Mirror.cloneRepository "/srv" Mirror.acme
                 Mirror.refusing_twice Mirror.blank_disk in
   let ready := Mirror.initialize "/srv" Mirror.acme
                  Mirror.refusing_twice Mirror.blank_disk in
   done.1 = Fulfilled () ∧ Mirror.clone_attempts done.2 = 3%nat
   ∧ ready.1 = Fulfilled () ∧ Mirror.clone_attempts ready.2 = 3%nat)
  ∧ (let done := Mirror.cloneRepository "/srv" Mirror.acme
                   Mirror.refusing_always Mirror.blank_disk in
     let ready := Mirror.initialize "/srv" Mirror.acme
                    Mirror.refusing_always Mirror.blank_disk in
     done.1 = Rejected (Mirror.exhausted Mirror.acme)
     ∧ Mirror.clone_attempts done.2 = 3%nat
     ∧ ready.1 = Rejected (Mirror.exhausted Mirror.acme)
     ∧ Mirror.clone_attempts ready.2 = 3%nat).
Proof.
  split.
  - destruct (cloneRepository_three_attempts "/srv" Mirror.acme
                Mirror.refusing_twice Mirror.blank_disk)
      as (_ & _ & Hthird & _).
    destruct Hthird as (Hok & Hn & _ & Hready); [reflexivity..|].
    destruct Hready as (Hrok & Hrn);
      [discriminate|by intros _|reflexivity|].
    cbv zeta. auto.
  - destruct (cloneRepository_three_attempts "/srv" Mirror.acme
                Mirror.refusing_always Mirror.blank_disk)
      as (_ & _ & _ & Hnever).
    destruct Hnever as (Hrej & Hn & Hready); [reflexivity|].
    destruct Hready as (Hrrej & Hrn); [discriminate|by intros _|].
    cbv zeta. auto.
Defined.

(** C7: a mirror in place and a remote that refuses the pull. *)
Lemma initialize_existing_mirror_pulls_once_witness :
  let ready := Mirror.initialize "/srv" Mirror.acme Mirror.refusing_pull
                 Mirror.mirrored_disk in
  Mirror.on_disk Mirror.mirrored_disk = Mirror.MirrorPresent
  ∧ Mirror.clone_attempts ready.2 = 0%nat
  ∧ Mirror.pulls ready.2 = 1%nat
  ∧ ready.1 = Rejected (Mirror.GitFailed (Mirror.Pull "/srv/.repos/acme/docs")).
Proof.
  intros ready.
  destruct (initialize_existing_mirror_pulls_once "/srv" Mirror.acme
              Mirror.refusing_pull Mirror.mirrored_disk eq_refl)
    as (Hclones & Hpulls & Hfail).
  destruct Hfail as [Hrej _]; [reflexivity|].
  split; [reflexivity|]. split; [exact Hclones|]. split; [exact Hpulls|].
  exact Hrej.
Defined.


(** The store of the host keeps a record that is there. *)
Lemma keeping_host_keeps : Knowledge.KeepingStore Knowledge.keeping_host.
Proof.
  split; cbn; intros s item.
  - intros k Hk. destruct (s !! Knowledge.id item) eqn:E; [done|].
    destruct (decide (k = Knowledge.id item)) as [->|Hne].
    + rewrite E in Hk. by destruct Hk.
    + by rewrite lookup_insert_ne.
  - intros ->. apply lookup_insert_eq.
  - intros k Hne. destruct (s !! Knowledge.id item); [done|].
    by rewrite lookup_insert_ne.
Qed.

(** C1: three scans in a row of the updated documentation mirror over
    the store of the host, the first one starting from the store of the
    previous scan. The first scan hands [a.md] (changed) and [c.md] (new)
    to [knowledge.set]; the second and the third hand [a.md] over again,
    whose record still carries the fingerprint of the old text. *)
Lemma rescan_sets_changed_files_again_witness :
  let H := Knowledge.keeping_host in
  let config := Knowledge.acme_docs in
  let mirror := Knowledge.mirror_after_update in
  let scan (s : Knowledge.Store (Host := H)) :=
    Knowledge.createMemoriesFromFiles (H := H) config mirror
      (Knowledge.fresh (H := H) s) in
  let first := scan Knowledge.store_before_update in
  let second := scan (Knowledge.store first.2) in
  let third := scan (Knowledge.store second.2) in
  Forall (Knowledge.readable (H := H) mirror)
    (Knowledge.scanned_files config mirror)
  ∧ NoDup (Knowledge.file_id (H := H) config
             <$> Knowledge.scanned_files config mirror)
  ∧ Knowledge.id <$> Knowledge.upserts first.2
    = ["github-acme-docs-guides/a.md"; "github-acme-docs-guides/c.md"]
  ∧ second.1 = Fulfilled ()
  ∧ Knowledge.id <$> Knowledge.upserts second.2
    = ["github-acme-docs-guides/a.md"]
  ∧ Knowledge.id <$> Knowledge.upserts third.2
    = ["github-acme-docs-guides/a.md"]
  ∧ Knowledge.stored_hash (H := H) (Knowledge.store second.2)
      "github-acme-docs-guides/a.md"
    = Some (Knowledge.fingerprint (H := H) (Knowledge.bytes_of "alpha"))
  ∧ Knowledge.fresh_hash (H := H) mirror ["guides"; "a.md"]
    = Some (Knowledge.fingerprint (H := H)
              (Knowledge.bytes_of "alpha, revised")).
Proof.
  intros H config mirror scan first second third.
  assert (Hread : Forall (Knowledge.readable (H := H) mirror)
                    (Knowledge.scanned_files config mirror)).
  { repeat constructor; by eexists. }
  assert (Hnd : NoDup (Knowledge.file_id (H := H) config
                         <$> Knowledge.scanned_files config mirror)).
  { apply (bool_decide_unpack _). by vm_compute. }
  destruct (rescan_sets_changed_files_again (H := H)
              (HK := keeping_host_keeps) config mirror
              Knowledge.store_before_update Hread Hnd)
    as (Hok & Hups & Hkeep).
  split; [exact Hread|]. split; [exact Hnd|]. split; [reflexivity|].
  subst third second first scan. cbv beta.
  split; [exact Hok|]. split; [rewrite Hups; by vm_compute|].
  split; [reflexivity|]. split; [|reflexivity].
  unfold Knowledge.stored_hash.
  rewrite (Hkeep "github-acme-docs-guides/a.md") by (by eexists).
  reflexivity.
Defined.

(** Two scans of the updated documentation mirror over a store that
    replaces records, the first one starting from the store of the
    previous scan. *)
Lemma rescan_upserts_nothing_witness :
  let H := Knowledge.map_host in
  let config := Knowledge.acme_docs in
  let mirror := Knowledge.mirror_after_update in
  let first :=
    Knowledge.createMemoriesFromFiles config mirror
      (Knowledge.fresh Knowledge.store_before_update) in
  let second :=
    Knowledge.createMemoriesFromFiles config mirror
      (Knowledge.fresh (Knowledge.store first.2)) in
  Knowledge.consistent_ids config mirror
    (Knowledge.scanned_files config mirror)
  ∧ length (Knowledge.upserts first.2) = 2%nat
  ∧ Knowledge.upserts second.2 = []
  ∧ Knowledge.store second.2 = Knowledge.store first.2.
Proof.
  intros H config mirror first second.
  assert (Hnd : NoDup (Knowledge.file_id config
                         <$> Knowledge.scanned_files config mirror)).
  { apply (bool_decide_unpack _). by vm_compute. }
  assert (Hcons : Knowledge.consistent_ids config mirror
                    (Knowledge.scanned_files config mirror)).
  { intros f g Hf Hg Hid.
    by rewrite (NoDup_fmap_same _ _ _ _ Hnd Hf Hg Hid). }
  destruct (rescan_upserts_nothing (H := Knowledge.map_host)
              (HS := map_host_keyed)
              config mirror (Knowledge.fresh Knowledge.store_before_update)
              Hcons) as (Hnone & Hstore & _).
  split; [exact Hcons|]. split; [reflexivity|]. split; [exact Hnone|].
  exact Hstore.
Defined.


(** C4: the mirror whose first listed file cannot be read. *)
Lemma scan_stops_at_unreadable_file_witness :
  let H := Knowledge.map_host in
  let config := Knowledge.acme_docs in
  let mirror := Knowledge.mirror_with_unreadable in
  Knowledge.scanned_files config mirror
    = [] ++ ["guides"; "a.md"] :: [["guides"; "b.md"]]
  ∧ ¬ Knowledge.readable mirror ["guides"; "a.md"]
  ∧ Knowledge.createMemoriesFromFiles config mirror (Knowledge.fresh ∅)
    = (Rejected (Knowledge.ReadFailed ["guides"; "a.md"]),
       Knowledge.started (Knowledge.fresh ∅)).
Proof.
  intros H config mirror.
  assert (Hfile : ¬ Knowledge.readable mirror ["guides"; "a.md"]).
  { intros [h Hh]. discriminate Hh. }
  split; [reflexivity|]. split; [exact Hfile|].
  exact (proj2 (scan_stops_at_unreadable_file (H := Knowledge.map_host)
                  config mirror []
                  [["guides"; "b.md"]] ["guides"; "a.md"] (Knowledge.fresh ∅)
                  eq_refl ltac:(constructor) Hfile)).
Defined.

(** C6: the listing of the mirror with dot files, kept at
    [/srv/.repos/acme/docs] and scanned below [guides], named directly
    and in a roundabout way. *)
Lemma scan_lists_undotted_files_witness :
  let config := Knowledge.acme_docs in
  let roundabout := Knowledge.acme_docs_roundabout in
  let mirror := Knowledge.mirror_with_dotfiles in
  Tree.plain (Mirror.repoPath "/srv" config) = true
  ∧ Tree.plain (Mirror.path config) = true
  ∧ (".." ∉ Knowledge.scan_root config)
  ∧ Tree.well_formed mirror
  ∧ NoDup (Knowledge.scanned_files config mirror)
  ∧ ["guides"; "a.md"] ∈ Knowledge.scanned_files config mirror
  ∧ Tree.plain (Mirror.path roundabout) = true
  ∧ Knowledge.scan_root roundabout = ["guides"]
  ∧ ["guides"; "a.md"] ∈ Knowledge.scanned_files roundabout mirror.
Proof.
  intros config roundabout mirror.
  assert (Hwf : Tree.well_formed mirror).
  { cbn. repeat split; apply (bool_decide_unpack _); by vm_compute. }
  assert (Hin0 : ".." ∉ Knowledge.scan_root config).
  { apply (bool_decide_unpack _). by vm_compute. }
  assert (Hin1 : ".." ∉ Knowledge.scan_root roundabout).
  { apply (bool_decide_unpack _). by vm_compute. }
  assert (Hfile : ∃ q, ["guides"; "a.md"] = ["guides"] ++ q ∧ q ≠ []
                       ∧ Tree.is_file mirror ["guides"; "a.md"]
                       ∧ Tree.undotted q).
  { exists ["a.md"].
    split; [reflexivity|]. split; [discriminate|]. split; [by eexists|].
    by repeat constructor. }
  destruct (scan_lists_undotted_files config mirror "/srv"
              eq_refl eq_refl Hin0 Hwf) as [Hnd Hin].
  destruct (scan_lists_undotted_files roundabout mirror "/srv"
              eq_refl eq_refl Hin1 Hwf) as [_ Hin'].
  split; [reflexivity|]. split; [reflexivity|]. split; [exact Hin0|].
  split; [exact Hwf|]. split; [exact Hnd|].
  split; [by apply Hin|]. split; [reflexivity|]. split; [reflexivity|].
  by apply Hin'.
Defined.

(** C2: a well-formed file is fingerprinted by the digest of its bytes. *)
Lemma fingerprint_digests_decoded_text_witness :
  let H := Knowledge.map_host in
  let bytes := Knowledge.bytes_of "alpha" in
  Utf8.well_formed bytes
  ∧ Knowledge.fingerprint bytes = Knowledge.spec_fingerprint bytes.
Proof.
  intros H bytes.
  assert (Hwf : Utf8.well_formed bytes).
  { exists [97; 108; 112; 104; 97]%Z. split; [|reflexivity].
    repeat constructor; unfold Utf8.scalar; lia. }
  destruct (fingerprint_digests_decoded_text (H := Knowledge.map_host)
              Knowledge.acme_docs
              Knowledge.mirror_after_update bytes bytes)
    as (_ & _ & _ & Hraw & _).
  split; [exact Hwf|exact (Hraw Hwf)].
Defined.

(** C9: the two configurations share the record of [README.md]. *)
Lemma knowledgeId_not_injective_witness :
  let H := Knowledge.map_host in
  Knowledge.knowledgeId_of
    {| Mirror.owner := "a"; Mirror.repo := "b-c"; Mirror.branch := "main";
       Mirror.path := ""; Mirror.token := "" |} "README.md"
  = Knowledge.knowledgeId_of
      {| Mirror.owner := "a-b"; Mirror.repo := "c"; Mirror.branch := "main";
         Mirror.path := ""; Mirror.token := "" |} "README.md".
Proof.
  intros H.
  exact (proj1 (proj2 (proj2 (knowledgeId_not_injective
                               (H := Knowledge.map_host) "README.md")))).
Defined.

(* ===================================================================== *)
(** * Further properties of the client                                    *)
(* ===================================================================== *)

(** ** Configuration check: what a rejection reports *)

Section EnvironmentReports.
Import Environment Observed.

Lemma string_min1_filled key message v :
  string_min1 key message v =
    if filled v then []
    else [ {| issue_path := key;
              issue_what := match v with
                            | None => invalid_type
                            | Some _ => too_small message
                            end |} ].
Proof. destruct v as [[|c s]|]; reflexivity. Qed.

Lemma githubEnvSchema_issues_by_key runtime :
  githubEnvSchema_issues
    {| raw_owner := runtime "GITHUB_OWNER";
       raw_repo := runtime "GITHUB_REPO";
       raw_branch := runtime "GITHUB_BRANCH";
       raw_path := runtime "GITHUB_PATH";
       raw_token := runtime "GITHUB_API_TOKEN" |}
  = List.map (issue_for runtime)
      (List.filter (λ key, negb (filled (runtime key))) schema_keys).
Proof.
  unfold githubEnvSchema_issues, schema_keys, issue_for.
  cbn [raw_owner raw_repo raw_branch raw_path raw_token List.filter].
  rewrite !string_min1_filled.
  destruct (filled (runtime "GITHUB_OWNER")),
    (filled (runtime "GITHUB_REPO")), (filled (runtime "GITHUB_BRANCH")),
    (filled (runtime "GITHUB_PATH")), (filled (runtime "GITHUB_API_TOKEN"));
    reflexivity.
Qed.

(** X1. A rejected configuration is reported in full: the error carries
    one issue for every setting that is missing or empty, in the order of
    the schema, and none for the others. A missing setting is reported as
    a wrong type, an empty one with the message the schema gives for its
    key. *)
Theorem validateGithubConfig_reports_every_unfilled_setting
    (runtime : Settings) (e : ValidationError) :
  validateGithubConfig runtime = Rejected e →
  validation_issues e
  = List.map (issue_for runtime)
      (List.filter (λ key, negb (filled (runtime key))) schema_keys)
  ∧ validation_issues e ≠ []
  ∧ (length (validation_issues e) ≤ 5)%nat.
Proof.
  intros Hrej.
  assert (Hissues : validation_issues e
    = List.map (issue_for runtime)
        (List.filter (λ key, negb (filled (runtime key))) schema_keys)).
  { rewrite <- githubEnvSchema_issues_by_key.
    unfold validateGithubConfig, githubEnvSchema_parse in Hrej.
    destruct (githubEnvSchema_issues _) as [|i l] eqn:E.
    - exfalso. rewrite githubEnvSchema_issues_by_key in E.
      unfold schema_keys in E. cbn [List.filter] in E.
      cbn [raw_owner raw_repo raw_branch raw_path raw_token] in Hrej.
      destruct (runtime "GITHUB_OWNER") as [[|? ?]|];
        destruct (runtime "GITHUB_REPO") as [[|? ?]|];
        destruct (runtime "GITHUB_BRANCH") as [[|? ?]|];
        destruct (runtime "GITHUB_PATH") as [[|? ?]|];
        destruct (runtime "GITHUB_API_TOKEN") as [[|? ?]|];
        cbn in E; discriminate.
    - by injection Hrej as <-. }
  split; [exact Hissues|]. split.
  - intros Hnil. unfold validateGithubConfig, githubEnvSchema_parse in Hrej.
    rewrite githubEnvSchema_issues_by_key, <- Hissues, Hnil in Hrej.
    cbn [raw_owner raw_repo raw_branch raw_path raw_token] in Hrej.
    rewrite Hnil in Hissues. symmetry in Hissues.
    apply map_eq_nil in Hissues.
    unfold schema_keys in Hissues. cbn [List.filter] in Hissues.
    destruct (runtime "GITHUB_OWNER") as [[|? ?]|];
      destruct (runtime "GITHUB_REPO") as [[|? ?]|];
      destruct (runtime "GITHUB_BRANCH") as [[|? ?]|];
      destruct (runtime "GITHUB_PATH") as [[|? ?]|];
      destruct (runtime "GITHUB_API_TOKEN") as [[|? ?]|];
      cbn in Hissues; discriminate.
  - rewrite Hissues, length_map.
    etransitivity; [apply List.filter_length_le|]. reflexivity.
Qed.

End EnvironmentReports.

(** ** The local mirror: traces of the calls *)

Section MirrorTraces.
Import Mirror Observed.
Context (cwd : string) (config : Config) (remote : Remote).

Lemma events_after_failure w :
  events (after_failure cwd config w) = events w ++ refusals cwd config 1.
Proof.
  unfold after_failure, record. cbn [events refusals].
  by rewrite <- app_assoc.
Qed.

Lemma events_after_success w :
  events (after_success cwd config w) = events w ++ acceptance cwd config.
Proof.
  unfold after_success, record, acceptance. cbn [events].
  by rewrite <- app_assoc.
Qed.

Lemma on_disk_after_failure w :
  on_disk (after_failure cwd config w) = on_disk w.
Proof. reflexivity. Qed.

Lemma on_disk_after_success w :
  on_disk (after_success cwd config w) = MirrorPresent.
Proof. reflexivity. Qed.

Lemma world_eq w d es : on_disk w = d → events w = es →
  w = {| on_disk := d; events := es |}.
Proof. destruct w. cbn. by intros -> ->. Qed.

(** X2. [cloneRepository] stops at the first attempt that the remote
    accepts: after [k] refusals (k below 3) and one acceptance it fulfils,
    the mirror is on disk, and the calls it made are exactly [k] times a
    clone followed by the error log, then one clone followed by the
    success log. In particular an accepted first attempt is the only
    one. *)
Theorem cloneRepository_stops_at_first_acceptance (w : World) (k : nat) :
  (k < 3)%nat →
  (∀ j, (j < k)%nat → clone_ok remote (clone_attempts w + j) = false) →
  clone_ok remote (clone_attempts w + k) = true →
  cloneRepository cwd config remote w
  = (Fulfilled (),
     {| on_disk := MirrorPresent;
        events := events w ++ refusals cwd config k
                    ++ acceptance cwd config |}).
Proof.
  intros Hk Hrefused Haccepted. rewrite cloneRepository_cases. cbv zeta.
  destruct k as [|[|[|k]]]; [| | |lia].
  - rewrite Nat.add_0_r in Haccepted. rewrite Haccepted. f_equal.
    apply world_eq; [done|]. by rewrite events_after_success.
  - pose proof (Hrefused 0%nat ltac:(lia)) as H0.
    rewrite Nat.add_0_r in H0. rewrite H0, Haccepted. f_equal.
    apply world_eq; [done|].
    rewrite events_after_success, events_after_failure.
    by rewrite <- app_assoc.
  - pose proof (Hrefused 0%nat ltac:(lia)) as H0.
    pose proof (Hrefused 1%nat ltac:(lia)) as H1.
    rewrite Nat.add_0_r in H0. rewrite H0, H1, Haccepted. f_equal.
    apply world_eq; [done|].
    rewrite events_after_success, !events_after_failure.
    by rewrite <- !app_assoc.
Qed.

Lemma checkouts_record e w :
  checkouts (record e w)
  = checkouts w ++ (if is_checkout e then [e] else []).
Proof.
  unfold checkouts, record. cbn [events].
  rewrite List.filter_app. cbn. by destruct (is_checkout e).
Qed.

Lemma checkouts_cloneRepository w :
  checkouts (cloneRepository cwd config remote w).2 = checkouts w.
Proof.
  rewrite cloneRepository_cases. cbv zeta.
  assert (Hf : ∀ w0, checkouts (after_failure cwd config w0) = checkouts w0).
  { intros w0. unfold after_failure. rewrite !checkouts_record. cbn.
    by rewrite !app_nil_r. }
  assert (Hs : ∀ w0, checkouts (after_success cwd config w0) = checkouts w0).
  { intros w0. unfold checkouts.
    rewrite events_after_success, List.filter_app. cbn.
    by rewrite app_nil_r. }
  repeat match goal with
         | |- context [clone_ok remote ?n] => destruct (clone_ok remote n)
         end; cbn [snd]; by rewrite ?Hs, ?Hf.
Qed.

Lemma on_disk_cloneRepository w :
  (cloneRepository cwd config remote w).1 = Fulfilled () →
  on_disk (cloneRepository cwd config remote w).2 = MirrorPresent.
Proof.
  rewrite cloneRepository_cases. cbv zeta.
  repeat match goal with
         | |- context [clone_ok remote ?n] => destruct (clone_ok remote n)
         end; cbn [fst snd]; done.
Qed.

Lemma then_checkout_on_disk r :
  on_disk (then_checkout cwd config remote r).2 = on_disk r.2.
Proof.
  destruct r as [[[]|e] w]; cbn [then_checkout snd]; [|done].
  destruct (bool_decide _); [|done].
  unfold git_checkout. by destruct (checkout_ok remote _).
Qed.

Lemma then_checkout_fulfilled r :
  (then_checkout cwd config remote r).1 = Fulfilled () → r.1 = Fulfilled ().
Proof. destruct r as [[[]|e] w]; cbn [then_checkout fst]; done. Qed.

Lemma initialize_fulfilled_on_disk w :
  (initialize cwd config remote w).1 = Fulfilled () →
  on_disk (initialize cwd config remote w).2 = MirrorPresent.
Proof.
  rewrite initialize_unfold.
  destruct (fs_mkdir remote _ w) as [[[]|e] w1] eqn:Emk; [|done].
  intros Hok. rewrite then_checkout_on_disk.
  apply then_checkout_fulfilled in Hok.
  destruct (on_disk w1) eqn:Ed.
  - by apply on_disk_cloneRepository.
  - by apply on_disk_cloneRepository.
  - unfold git_pull. by destruct (pull_ok remote).
Qed.

Lemma initialize_with_mirror_counts w :
  on_disk w = MirrorPresent →
  clone_attempts (initialize cwd config remote w).2 = clone_attempts w
  ∧ pulls (initialize cwd config remote w).2 = S (pulls w).
Proof.
  intros Hd. rewrite initialize_unfold.
  unfold fs_mkdir. rewrite Hd. cbn [record on_disk]. rewrite Hd.
  unfold git_pull, then_checkout, git_checkout.
  destruct (pull_ok remote);
    [destruct (bool_decide _); [destruct (checkout_ok remote _)|]|];
    cbn [snd];
    rewrite ?clone_attempts_record, ?pulls_record; cbn [is_clone is_pull];
    lia.
Qed.

(** X3. An [initialize] that fulfils leaves the mirror on disk, whichever
    way it went; an [initialize] that follows it therefore attempts no
    clone and pulls exactly once. *)
Theorem initialize_again_pulls (w : World) :
  let ready := initialize cwd config remote w in
  ready.1 = Fulfilled () →
  let again := initialize cwd config remote ready.2 in
  on_disk ready.2 = MirrorPresent
  ∧ clone_attempts again.2 = clone_attempts ready.2
  ∧ pulls again.2 = S (pulls ready.2).
Proof.
  intros ready Hok again.
  pose proof (initialize_fulfilled_on_disk w Hok) as Hd.
  split; [exact Hd|]. by apply initialize_with_mirror_counts.
Qed.

(** X4. When the owner directory is missing and cannot be created,
    [initialize] rejects with that failure and makes no git call at all:
    the attempt to create the directory is the only thing it did. *)
Theorem initialize_stops_when_mkdir_fails (w : World) :
  on_disk w = NoOwnerDir →
  mkdir_ok remote = false →
  let dir := path_join (path_join cwd ".repos") (owner config) in
  initialize cwd config remote w
  = (Rejected (MkdirFailed dir), record (Mkdir dir) w).
Proof.
  intros Hd Hmk dir. rewrite initialize_unfold. fold dir.
  unfold fs_mkdir. by rewrite Hd, Hmk.
Qed.

(** X5. [initialize] checks out at most once, and only the configured
    branch in the mirror directory: with an empty branch setting it checks
    out nothing; when it fulfils with a non-empty branch setting, that
    branch was checked out, once, and the checkout was accepted. *)
Theorem initialize_checks_out_the_configured_branch (w : World) :
  let ready := initialize cwd config remote w in
  let checkout := Checkout (repoPath cwd config) (branch config) in
  (checkouts ready.2 = checkouts w
   ∨ checkouts ready.2 = checkouts w ++ [checkout])
  ∧ (branch config = "" → checkouts ready.2 = checkouts w)
  ∧ (ready.1 = Fulfilled () → branch config ≠ "" →
       checkouts ready.2 = checkouts w ++ [checkout]
       ∧ checkout_ok remote (branch config) = true).
Proof.
  intros ready checkout. subst ready. rewrite initialize_unfold.
  assert (Hmk : ∀ dir, checkouts (fs_mkdir remote dir w).2 = checkouts w).
  { intros dir. unfold fs_mkdir.
    destruct (on_disk w), (mkdir_ok remote); cbn [snd];
      try (change (checkouts {| on_disk := ?d; events := events ?x |})
             with (checkouts x));
      rewrite checkouts_record; cbn; by rewrite app_nil_r. }
  set (dir := path_join _ _). specialize (Hmk dir).
  destruct (fs_mkdir remote dir w) as [[[]|e] w1]; cbn [snd] in Hmk.
  2: { cbn [fst snd]. rewrite Hmk. split; [by left|]. split; done. }
  set (r := match on_disk w1 with
            | MirrorPresent => git_pull remote (repoPath cwd config) w1
            | _ => cloneRepository cwd config remote w1
            end).
  assert (Hr : checkouts r.2 = checkouts w).
  { subst r. destruct (on_disk w1).
    - by rewrite checkouts_cloneRepository.
    - by rewrite checkouts_cloneRepository.
    - unfold git_pull. destruct (pull_ok remote); cbn [snd];
        rewrite checkouts_record; cbn; by rewrite app_nil_r. }
  destruct r as [[[]|e] w2]; cbn [snd] in Hr; cbn [then_checkout].
  2: { cbn [fst snd]. rewrite Hr. split; [by left|]. split; done. }
  destruct (bool_decide (branch config ≠ "")) eqn:Eb.
  - apply bool_decide_eq_true in Eb. unfold git_checkout.
    destruct (checkout_ok remote (branch config)); cbn [fst snd];
      rewrite checkouts_record, Hr; cbn [is_checkout]; fold checkout;
      (split; [by right|]); (split; [done|]); done.
  - apply bool_decide_eq_false in Eb. cbn [fst snd]. rewrite Hr.
    split; [by left|]. split; [done|]. intros _ Hne. by destruct Eb.
Qed.

End MirrorTraces.

(** ** The scan: what ends up in the store *)

Section ScanResults.
Import Mirror Tree Knowledge Observed.
Context {H : Host}.
Context (config : Config) (mirror : node).

(** X6. The path of the mirror and the path filter are spliced into the
    pattern. When neither holds a character that glob gives a meaning of
    its own, and the normalised filter stays inside the mirror and does
    not lead to a directory of it (it is missing, or it is a file), the
    scan lists nothing: it fulfils without a lookup and without setting
    any record. *)
Theorem scan_of_a_missing_directory_is_empty (cwd : string) (st : Scan) :
  plain (repoPath cwd config) = true →
  plain (path config) = true →
  ".." ∉ scan_root config →
  (∀ es, resolve mirror (scan_root config) ≠ Some (Dir es)) →
  scanned_files config mirror = []
  ∧ createMemoriesFromFiles config mirror st = (Fulfilled (), started st).
Proof.
  intros _ _ _ Hnot.
  assert (Hnone : scanned_files config mirror = []).
  { rewrite scanned_files_glob. unfold glob.
    destruct (resolve mirror (scan_root config)) as [[d|es]|] eqn:E;
      [done| |done].
    by destruct (Hnot es). }
  split; [exact Hnone|].
  change (createMemoriesFromFiles config mirror st)
    with (process_files config mirror (scanned_files config mirror)
            (started st)).
  by rewrite Hnone.
Qed.

Lemma process_files_fulfilled_iff files st :
  (process_files config mirror files st).1 = Fulfilled ()
  ↔ Forall (readable mirror) files.
Proof.
  split; [|apply process_files_readable].
  revert st. induction files as [|f files IH]; intros st; [by constructor|].
  rewrite process_files_cons, process_file_cases.
  destruct (resolve mirror f) as [[[bytes|]|es]|] eqn:Ef; try done.
  assert (Hf : readable mirror f).
  { unfold readable, fresh_hash. rewrite Ef. by eexists. }
  destruct (bool_decide _); intros Hok; constructor; eauto.
Qed.

(** X7. What the outcome of the loop tells about the reads, whatever the
    listing: a loop that fulfils has read every listed file, and a loop
    that rejects with the read failure of a file stopped at that file,
    which is the first of the listing that cannot be read. *)
Theorem scan_outcome_tells_what_was_read (files : list fpath) (st : Scan) :
  let run := process_files config mirror files st in
  (run.1 = Fulfilled () → Forall (readable mirror) files)
  ∧ (∀ f, run.1 = Rejected (ReadFailed f) →
       ∃ pre post,
         files = (pre ++ f :: post)%list
         ∧ Forall (readable mirror) pre
         ∧ ¬ readable mirror f).
Proof.
  cbv zeta. split; [apply process_files_fulfilled_iff|].
  revert st. induction files as [|g files IH]; intros st f; [done|].
  rewrite process_files_cons, process_file_cases.
  assert (Hstop : ¬ readable mirror g →
                  (Rejected (ReadFailed g) : outcome error unit)
                  = Rejected (ReadFailed f) →
                  ∃ pre post,
                    g :: files = (pre ++ f :: post)%list
                    ∧ Forall (readable mirror) pre ∧ ¬ readable mirror f).
  { intros Hg [= <-]. exists [], files. by repeat split. }
  assert (Hgo : ∀ st', readable mirror g →
                (process_files config mirror files st').1
                = Rejected (ReadFailed f) →
                ∃ pre post,
                  g :: files = (pre ++ f :: post)%list
                  ∧ Forall (readable mirror) pre ∧ ¬ readable mirror f).
  { intros st' Hg Hrej.
    destruct (IH st' f Hrej) as (pre & post & -> & Hpre & Hf).
    exists (g :: pre), post. split; [done|]. split; [by constructor|done]. }
  destruct (resolve mirror g) as [[[bytes|]|es]|] eqn:Eg.
  - assert (Hg : readable mirror g).
    { unfold readable, fresh_hash. rewrite Eg. by eexists. }
    destruct (bool_decide _); by apply Hgo.
  - apply Hstop. unfold readable, fresh_hash. rewrite Eg. by intros [? [=]].
  - apply Hstop. unfold readable, fresh_hash. rewrite Eg. by intros [? [=]].
  - apply Hstop. unfold readable, fresh_hash. rewrite Eg. by intros [? [=]].
Qed.

Section WithKeyedStore.
Context {HS : KeyedStore H}.

Lemma process_files_keeps_records files st k :
  is_Some (getMemoryById (store st) k) →
  is_Some (getMemoryById (store (process_files config mirror files st).2) k).
Proof.
  revert st. induction files as [|f files IH]; intros st Hk; [done|].
  rewrite process_files_cons, process_file_cases.
  destruct (resolve mirror f) as [[[bytes|]|es]|]; try done.
  destruct (bool_decide _); [by apply IH|].
  apply IH. cbn [store upserted].
  destruct (decide (k = id (item_of config f bytes))) as [->|Hne].
  - by rewrite get_set_same.
  - by rewrite get_set_other.
Qed.

(** X8. The scan never removes a record: every identifier that has a
    record before the scan has one after it, also when the scan aborts.
    The record of a file that is no longer in the mirror stays in the
    store. *)
Theorem scan_never_removes_a_record (st : Scan) (k : string) :
  is_Some (getMemoryById (store st) k) →
  is_Some (getMemoryById
             (store (createMemoriesFromFiles config mirror st).2) k).
Proof. intros Hk. by apply (process_files_keeps_records _ (started st)). Qed.

Lemma record_of_readable f :
  readable mirror f →
  ∃ bytes, resolve mirror f = Some (File (Some bytes))
           ∧ record_of config mirror f = Some (item_of config f bytes)
           ∧ fresh_hash mirror f = Some (fingerprint bytes).
Proof.
  intros [h Hh]. apply fresh_hash_Some in Hh as (bytes & Hres & ->).
  exists bytes. unfold record_of, fresh_hash. by rewrite Hres.
Qed.

(** The record found under the identifier of a stale file after the
    scan. *)
Lemma process_files_records (files : list fpath) st :
  Forall (readable mirror) files →
  NoDup (file_id config <$> files) →
  ∀ f, f ∈ files → stale config mirror (store st) f →
    getMemoryById (store (process_files config mirror files st).2)
      (file_id config f)
    = record_of config mirror f.
Proof.
  intros Hall. revert st.
  induction Hall as [|g files Hg Hall IH]; intros st Hnd f Hin Hstale.
  { by apply elem_of_nil in Hin. }
  rewrite fmap_cons, NoDup_cons in Hnd. destruct Hnd as [Hnin Hnd].
  rewrite process_files_cons, process_file_cases.
  destruct (record_of_readable g Hg) as (bytes & Hres & Hrec & Hfresh).
  rewrite Hres.
  assert (Huntouched : ∀ st1,
    getMemoryById (store (process_files config mirror files st1).2)
      (file_id config g)
    = getMemoryById (store st1) (file_id config g)).
  { intros st1.
    destruct (process_files_stale config mirror files st1 Hall Hnd)
      as (_ & _ & Hkeep & _).
    apply Hkeep.
    intros (g' & Hid & Hin'%list_elem_of_filter)%list_elem_of_fmap.
    apply Hnin. rewrite Hid. apply list_elem_of_fmap_2. tauto. }
  apply elem_of_cons in Hin as [->|Hin].
  - rewrite bool_decide_eq_false_2 by (unfold stale in Hstale; congruence).
    rewrite Huntouched, Hrec. cbn [store upserted].
    change (file_id config g) with (id (item_of config g bytes)).
    apply get_set_same.
  - assert (Hne : file_id config f ≠ file_id config g).
    { intros Heq. apply Hnin. rewrite <- Heq. by apply list_elem_of_fmap_2. }
    destruct (bool_decide _); [by apply IH|].
    apply IH; [done|done|]. by apply stale_upserted.
Qed.

(** X9. After a scan of readable files with pairwise different
    identifiers, the record under the identifier of each new or changed
    file is the one built from that file: its text is the decoded content,
    its hash the fresh fingerprint, its source "github", and its metadata
    the relative path with the configured repo and owner. A stored record
    without a hash counts as changed and is replaced in the same way. *)
Theorem scan_stores_the_record_of_each_stale_file (s : Store) :
  let files : list fpath := scanned_files config mirror in
  Forall (readable mirror) files →
  NoDup (file_id config <$> files) →
  let run := createMemoriesFromFiles config mirror (fresh s) in
  ∀ f, f ∈ files → stale config mirror s f →
    ∃ bytes,
      resolve mirror f = Some (File (Some bytes))
      ∧ getMemoryById (store run.2) (file_id config f)
        = Some {| id := file_id config f;
                  content :=
                    {| text := Utf8.decode bytes;
                       hash := Some (fingerprint bytes);
                       source := "github";
                       attachments := [];
                       metadata :=
                         Some {| meta_path := relative f;
                                 meta_repo := repo config;
                                 meta_owner := owner config |} |} |}.
Proof.
  intros files Hread Hnd run f Hin Hstale.
  assert (Hf : readable mirror f).
  { rewrite Forall_forall in Hread. by apply Hread. }
  destruct (record_of_readable f Hf) as (bytes & Hres & Hrec & _).
  exists bytes. split; [exact Hres|].
  subst run.
  change (createMemoriesFromFiles config mirror (fresh s))
    with (process_files config mirror files (started (fresh s))).
  rewrite (process_files_records files (started (fresh s)) Hread Hnd f Hin)
    by done.
  exact Hrec.
Qed.

(** X10. The store that a scan leaves does not depend on the order in
    which the files are listed: two listings of the same readable files
    with pairwise different identifiers, started from the same store, give
    the same record under every identifier and set the same identifiers. *)
Theorem scan_result_does_not_depend_on_the_listing_order
    (files files' : list fpath) (st : Scan) :
  files ≡ₚ files' →
  Forall (readable mirror) files →
  NoDup (file_id config <$> files) →
  let run := process_files config mirror files st in
  let run' := process_files config mirror files' st in
  run'.1 = run.1
  ∧ (∀ k, getMemoryById (store run'.2) k = getMemoryById (store run.2) k)
  ∧ id <$> upserts run'.2 ≡ₚ id <$> upserts run.2.
Proof.
  intros Hperm Hread Hnd run run'.
  assert (Hread' : Forall (readable mirror) files') by by rewrite <- Hperm.
  assert (Hnd' : NoDup (file_id config <$> files')) by by rewrite <- Hperm.
  destruct (process_files_stale config mirror files st Hread Hnd)
    as (Hok & Hups & Hkeep & _).
  destruct (process_files_stale config mirror files' st Hread' Hnd')
    as (Hok' & Hups' & Hkeep' & _).
  fold run in Hok, Hups, Hkeep. fold run' in Hok', Hups', Hkeep'.
  split; [congruence|]. split.
  - intros k.
    destruct (decide (k ∈ file_id config
                        <$> filter (stale config mirror (store st)) files))
      as [Hk|Hk].
    + apply list_elem_of_fmap in Hk as (f & -> & [Hs Hin]%list_elem_of_filter).
      subst run run'.
      rewrite (process_files_records files st Hread Hnd f Hin Hs).
      apply process_files_records; [done|done| |done]. by rewrite <- Hperm.
    + rewrite Hkeep by done. apply Hkeep'. by rewrite <- Hperm.
  - rewrite Hups, Hups'. by rewrite Hperm.
Qed.

End WithKeyedStore.

End ScanResults.

(** ** Write-back: branches, failures and the remote calls *)

Section WriteBackTraces.
Import Mirror WriteBack Observed.
Context (config : Config) (remote : WriteBack.Remote).

(** X11. A [createCommit] that fulfils was run on a branch that has an
    upstream (a bare push needs one with git's default push
    configuration), has stayed on it, has left every other branch as it
    was, and has pushed the branch once, after the commit. It has added one
    commit with the given message, holding what [git add "."] staged,
    when that differs from what the newest commit held; otherwise it has
    added no commit at all. *)
Theorem createCommit_commits_once_or_not_at_all
    (msg : string) (files : list FileEdit) (r : Repo) :
  let done := createCommit remote msg files r in
  done.1 = Fulfilled () →
  let commit := {| message := msg; snapshot := staged files r |} in
  current done.2 = current r
  ∧ current r ∈ tracking r
  ∧ (∀ b, b ≠ current r → branches done.2 !! b = branches r !! b)
  ∧ sent done.2 = sent r ++ [Pushed None (current r) (history done.2)]
  ∧ (staged files r = committed r → branches done.2 = branches r)
  ∧ (staged files r ≠ committed r →
       history done.2 = commit :: history r ∧ commit_ok remote = true).
Proof.
  intros done. subst done.
  destruct (settled_spec msg files r)
    as (_ & _ & Hcur & Hsent & _ & _ & Hothers & Hsame & Hnew).
  destruct (createCommit_runs remote msg files r)
    as [(k & f & _ & _ & ->)|[(_ & _ & _ & ->)
        |[(_ & _ & _ & ->)|(Hw & Hc & Hin & Hp & ->)]]];
    cbn [fst snd]; try done.
  intros _.
  change (current (with_sent ?e ?x)) with (current x).
  change (branches (with_sent ?e ?x)) with (branches x).
  change (history (with_sent ?e ?x)) with (history x).
  change (sent (with_sent ?e ?x)) with (sent x ++ [e]).
  rewrite Hsent. split; [done|]. split; [done|]. split; [done|].
  split; [done|]. split; [by intros Hs; apply Hsame|].
  intros Hs. split; [by apply Hnew|by apply Hc].
Qed.

(** X12. Nothing is rolled back when [createCommit] fails, and nothing
    reaches the remote. When the call rejects with a write that was
    refused, the edits before that one stay written, and nothing was
    staged or committed; when it rejects because git refused the commit,
    every edit stays written and what [git add "."] stages stays staged,
    with no commit made; when it rejects because the push was refused,
    the edits stay written and staged, and the commit, if there was
    anything to commit, stays on the local branch. *)
Theorem createCommit_leaves_its_writes_when_it_fails
    (msg : string) (files : list FileEdit) (r : Repo) (e : error) :
  let done := createCommit remote msg files r in
  done.1 = Rejected e →
  let written := apply_edits files (worktree r) in
  sent done.2 = sent r
  ∧ (∀ p, e = WriteFailed p →
       ∃ k file,
         files !! k = Some file ∧ file_path file = p
         ∧ worktree done.2 = apply_edits (take k files) (worktree r)
         ∧ index done.2 = index r
         ∧ branches done.2 = branches r)
  ∧ (e = GitFailed "commit" →
       worktree done.2 = written
       ∧ index done.2 = staged files r
       ∧ branches done.2 = branches r)
  ∧ (e = GitFailed "push" →
       worktree done.2 = written
       ∧ index done.2 = staged files r
       ∧ committed done.2 = staged files r
       ∧ (staged files r ≠ committed r →
            history done.2
            = {| message := msg; snapshot := staged files r |}
              :: history r)).
Proof.
  intros done. subst done.
  destruct (settled_spec msg files r)
    as (Hwt & Hix & _ & Hsent & _ & Hcom & _ & _ & Hnew).
  destruct (createCommit_runs remote msg files r)
    as [(k & f & _ & Hk & ->)|[(_ & Hs & Hc & ->)
        |[(_ & _ & Hno & ->)|(_ & _ & _ & _ & ->)]]];
    cbn [fst snd]; try done.
  - intros [= <-]. split; [done|]. split; [|done].
    intros p [= <-]. by exists k, f.
  - intros [= <-]. split; [done|]. split; [done|]. split; [|done].
    intros _. by repeat split.
  - intros [= <-]. split; [done|]. split; [done|]. split; [done|].
    intros _. by repeat split.
Qed.





(** X14. [createPullRequest] with a branch name that is already taken
    rejects at the checkout, before any file is written: the mirror is
    exactly as it was, and nothing was pushed or requested. *)
Theorem createPullRequest_rejects_a_taken_branch
    (title b : string) (files : list FileEdit) (description : option string)
    (r : Repo) :
  is_Some (branches r !! b) →
  createPullRequest config remote title b files description r
  = (Rejected (GitFailed "checkout"), r).
Proof.
  intros [h Hb]. unfold createPullRequest, bind, git_checkout_b.
  by rewrite Hb.
Qed.


(** X16. A [createPullRequest] that fulfils has made two remote calls, in
    this order: one push of the new branch to [origin], carrying the
    commits the branch then has, and one pull request from the new
    branch. The branch has the commits of the starting branch, with one
    new commit on top that is titled as the request and holds what
    [git add "."] staged when that differs from what the newest commit
    held, and with no new commit otherwise. The body of the request is
    the description, or the title when the description is missing or
    empty, and its base is the configured branch, or [main] when that is
    empty; what is returned is the answer of the hosting API. *)
Theorem createPullRequest_pushes_then_requests
    (title b : string) (files : list FileEdit) (description : option string)
    (r : Repo) (pr : PullData) :
  let done := createPullRequest config remote title b files description r in
  done.1 = Fulfilled pr →
  let commit := {| message := title; snapshot := staged files r |} in
  let request :=
    {| pr_owner := owner config; pr_repo := repo config;
       pr_title := title;
       pr_body := match description with
                  | Some d => if bool_decide (d = "") then title else d
                  | None => title
                  end;
       pr_head := b;
       pr_base := if bool_decide (branch config = "") then "main"
                  else branch config |} in
  sent done.2
  = sent r ++ [Pushed (Some ("origin", b)) b (history done.2);
               PullRequested request]
  ∧ pulls_create remote request = Some pr
  ∧ branches r !! b = None
  ∧ (staged files r = committed r → history done.2 = history r)
  ∧ (staged files r ≠ committed r →
       history done.2 = commit :: history r ∧ commit_ok remote = true).
Proof.
  intros done. subst done.
  destruct (branched_start b r) as (Hh & Hc & Hst & _).
  destruct (settled_spec title files (branched b r))
    as (_ & _ & _ & Hsent & _ & _ & _ & Hsame & Hnew).
  rewrite Hst, Hc, Hh in *.
  assert (Hreq :
    {| pr_owner := owner config; pr_repo := repo config; pr_title := title;
       pr_body := or_else (default "" description) title;
       pr_head := b; pr_base := or_else (branch config) "main" |}
    = {| pr_owner := owner config; pr_repo := repo config;
         pr_title := title;
         pr_body := match description with
                    | Some d => if bool_decide (d = "") then title else d
                    | None => title
                    end;
         pr_head := b;
         pr_base := if bool_decide (branch config = "") then "main"
                    else branch config |}).
  { unfold or_else. by destruct description. }
  destruct (createPullRequest_runs config remote title b files description r)
    as [[_ ->]|[Hfree [(k & f & _ & _ & ->)|[(_ & _ & _ & ->)
        |(_ & Hco & [[_ ->]|[(_ & _ & ->)|(pr' & _ & Hpr & ->)]])]]]];
    cbn [fst snd]; try done.
  intros [= ->]. rewrite Hreq in *.
  change (history (with_sent ?e (with_sent ?e' ?x))) with (history x).
  change (sent (with_sent ?e (with_sent ?e' ?x)))
    with ((sent x ++ [e']) ++ [e]).
  rewrite Hsent. cbn [sent branched].
  split; [by rewrite <- app_assoc|]. split; [done|]. split; [done|].
  split; [by intros Hs; apply Hsame|].
  intros Hs. split; [by apply Hnew|by apply Hco].
Qed.

(** X17. After a [createPullRequest] that fulfilled, the mirror is on the
    pull request's branch, which was pushed by name and has no upstream.
    With git's default push configuration, a [createCommit] that follows
    can therefore never fulfil: it stays on the pull request's branch,
    nothing more reaches the remote, and the branch the mirror was on
    before the pull request gets no commit. When it rejects at the push,
    its edits are written and its commit, holding what [git add "."]
    staged, is on the pull request's branch. *)
Theorem createCommit_after_createPullRequest_is_not_pushed
    (title b msg : string) (files more : list FileEdit)
    (description : option string) (r : Repo) (pr : PullData) :
  let first := createPullRequest config remote title b files description r in
  first.1 = Fulfilled pr →
  let second := createCommit remote msg more first.2 in
  second.1 ≠ Fulfilled ()
  ∧ sent second.2 = sent first.2
  ∧ current second.2 = b
  ∧ (b ≠ current r →
       branches second.2 !! current r = branches r !! current r)
  ∧ (second.1 = Rejected (GitFailed "push") →
       worktree second.2 = apply_edits more (worktree first.2)
       ∧ committed second.2 = staged more first.2
       ∧ (staged more first.2 ≠ committed first.2 →
            history second.2
            = {| message := msg; snapshot := staged more first.2 |}
              :: history first.2)).
Proof.
  intros first Hfirst.
  assert (Hstate : current first.2 = b
                   ∧ (b ∉ tracking first.2)
                   ∧ (b ≠ current r →
                      branches first.2 !! current r
                      = branches r !! current r)).
  { subst first.
    destruct (branched_start b r) as (_ & _ & _ & Hkept).
    destruct (settled_spec title files (branched b r))
      as (_ & _ & Hcur & _ & Htr & _ & Hothers & _ & _).
    destruct (createPullRequest_runs config remote title b files
                description r)
      as [[_ Hrun]|[_ [(k & f & _ & _ & Hrun)|[(_ & _ & _ & Hrun)
          |(_ & _ & [[_ Hrun]|[(_ & _ & Hrun)|(pr' & _ & _ & Hrun)]])]]]];
      rewrite Hrun in Hfirst |- *; cbn [fst snd] in *; try done.
    change (current (with_sent ?e (with_sent ?e' ?x))) with (current x).
    change (tracking (with_sent ?e (with_sent ?e' ?x))) with (tracking x).
    change (branches (with_sent ?e (with_sent ?e' ?x))) with (branches x).
    rewrite Hcur, Htr. cbn [current tracking branched].
    split; [done|].
    split; [apply not_elem_of_difference; right; by apply elem_of_singleton|].
    intros Hne. rewrite Hothers by done. by apply Hkept. }
  destruct Hstate as (Hon & Hnoup & Hstart).
  intros second. subst second. clear Hfirst.
  generalize dependent (first.2). clear first. intros r1 Hon Hnoup Hstart.
  destruct (settled_spec msg more r1)
    as (Hwt & _ & Hcur & Hsent & _ & Hcom & Hothers & _ & Hnew).
  destruct (createCommit_runs remote msg more r1)
    as [(k & f & Hw & _ & ->)|[(_ & Hs & Hc & ->)
        |[(_ & _ & _ & ->)|(_ & _ & Hin & _ & ->)]]];
    cbn [fst snd].
  - by repeat split.
  - by repeat split.
  - split; [done|]. split; [done|]. split; [congruence|].
    split; [|done]. intros Hne. rewrite Hothers by congruence.
    by apply Hstart.
  - rewrite Hon in Hin. done.
Qed.

End WriteBackTraces.

(** ** The plugin's entry point *)

Section PluginFacts.
Import Environment Mirror Tree Knowledge Plugin Observed.
Context {H : Host}.
Context (cwd : string) (runtime : Settings) (remote : Mirror.Remote)
  (checked_out : node).

Lemma all_five_client :
  all_five runtime →
  runtime "GITHUB_OWNER" = Some (owner (client_of runtime))
  ∧ runtime "GITHUB_REPO" = Some (repo (client_of runtime))
  ∧ runtime "GITHUB_BRANCH" = Some (branch (client_of runtime))
  ∧ runtime "GITHUB_PATH" = Some (path (client_of runtime))
  ∧ runtime "GITHUB_API_TOKEN" = Some (token (client_of runtime))
  ∧ branch (client_of runtime) ≠ ""
  ∧ path (client_of runtime) ≠ "".
Proof.
  intros ((o & Ho & ?) & (r & Hr & ?) & (b & Hb & ?) & (p & Hp & ?)
          & (t & Ht & ?)).
  unfold client_of. rewrite Ho, Hr, Hb, Hp, Ht. cbn. done.
Qed.

(** The stages of [start] when the settings pass the check. *)
Lemma start_valid a :
  all_five runtime →
  let client := client_of runtime in
  let logged :=
    record (LoggerLog "GitHubClientInterface start") (disk a) in
  start cwd runtime remote checked_out a
  = match initialize cwd client remote logged with
    | (Fulfilled _, w) =>
        match createMemoriesFromFiles client checked_out (memories a) with
        | (Fulfilled _, st) =>
            (Fulfilled client, {| disk := w; memories := st |})
        | (Rejected e, st) =>
            (Rejected (ScanError e), {| disk := w; memories := st |})
        end
    | (Rejected e, w) =>
        (Rejected (MirrorError e), {| disk := w; memories := memories a |})
    end.
Proof.
  intros Hall client logged.
  unfold start, bind at 1.
  rewrite (validate_fulfilled runtime Hall). cbn [checked ret].
  unfold bind at 1, on_mirror at 1, elizaLogger_log. cbn [disk memories].
  fold logged. unfold bind at 1, GitHubClient.
  destruct (all_five_client Hall) as (Ho & Hr & _).
  rewrite Ho, Hr. cbn [ret].
  change {| owner := owner (client_of runtime);
            repo := repo (client_of runtime);
            branch := default "" (runtime "GITHUB_BRANCH");
            path := default "" (runtime "GITHUB_PATH");
            token := default "" (runtime "GITHUB_API_TOKEN") |}
    with client.
  unfold bind, on_mirror, on_scan. cbn [disk memories].
  destruct (initialize cwd client remote logged) as [[[]|e] w]; [|done].
  cbn [disk memories].
  by destruct (createMemoriesFromFiles client checked_out (memories a))
    as [[[]|e] st].
Qed.

(** X18. With a setting missing or empty, [start] rejects with the
    validation error and has done nothing else: nothing was logged, no
    directory was created, no git call was made and the store was not
    read. *)
Theorem start_rejects_unfilled_settings_untouched (a : Agent) :
  ¬ all_five runtime →
  ∃ e, start cwd runtime remote checked_out a = (Rejected (InvalidConfig e), a).
Proof.
  intros Hnot. destruct (validate_rejected runtime Hnot) as [e He].
  exists e. unfold start, bind at 1. by rewrite He.
Qed.

(** X19. When [initialize] fails, [start] rejects with that failure and
    the scan is not run: the store, the list of records set and the
    console are as they were. *)
Theorem start_skips_the_scan_when_initialize_fails (a : Agent)
    (e : Mirror.error) :
  all_five runtime →
  let ready :=
    initialize cwd (client_of runtime) remote
      (record (LoggerLog "GitHubClientInterface start") (disk a)) in
  ready.1 = Rejected e →
  start cwd runtime remote checked_out a
  = (Rejected (MirrorError e), {| disk := ready.2; memories := memories a |}).
Proof.
  intros Hall ready He. rewrite start_valid by done. cbv zeta. fold ready.
  destruct ready as [[[]|e'] w]; cbn [fst snd] in *; congruence.
Qed.


End PluginFacts.

(** ** The scan: what it prints and how it names records *)

Section ScanOutput.
Import Mirror Tree Knowledge Observed.
Context {H : Host}.
Context (config : Config) (mirror : node).

(** X21. Every record the scan sets is announced: whatever the outcome,
    the console shows the opening line "Create memories" and then, for
    each record that was set and in the same order, one line "Processing
    knowledge for", the character's name, " - " and the relative path of
    the file; nothing else is printed. *)
Theorem scan_announces_each_record_it_sets (st : Scan) :
  let run := createMemoriesFromFiles config mirror st in
  ∃ new,
    upserts run.2 = upserts st ++ new
    ∧ console run.2
      = console st ++ ["Create memories"] :: (announcement <$> new)
    ∧ Forall (λ item, ∃ f, f ∈ scanned_files config mirror
                           ∧ id item = file_id config f
                           ∧ announcement item
                             = ["Processing knowledge for "; character_name;
                                " - "; relative f]) new.
Proof.
  intros run. subst run.
  change (createMemoriesFromFiles config mirror st)
    with (process_files config mirror (scanned_files config mirror)
            (started st)).
  generalize (scanned_files config mirror) at 1 2 3 as files.
  intros files.
  assert (Hgen : ∀ files st0, ∃ new,
    upserts (process_files config mirror files st0).2 = upserts st0 ++ new
    ∧ console (process_files config mirror files st0).2
      = console st0 ++ (announcement <$> new)
    ∧ Forall (λ item, ∃ f, f ∈ files
                           ∧ id item = file_id config f
                           ∧ announcement item
                             = ["Processing knowledge for "; character_name;
                                " - "; relative f]) new).
  { clear. induction files as [|f files IH]; intros st0.
    { exists []. rewrite !app_nil_r. by repeat split. }
    rewrite process_files_cons, process_file_cases.
    assert (Hweaken : ∀ new,
      Forall (λ item, ∃ g, g ∈ files ∧ id item = file_id config g
                            ∧ announcement item
                              = ["Processing knowledge for "; character_name;
                                 " - "; relative g]) new →
      Forall (λ item, ∃ g, g ∈ f :: files ∧ id item = file_id config g
                            ∧ announcement item
                              = ["Processing knowledge for "; character_name;
                                 " - "; relative g]) new).
    { intros new Hnew. eapply Forall_impl; [exact Hnew|].
      intros item (g & Hg & Hrest). exists g. split; [by right|done]. }
    destruct (resolve mirror f) as [[[bytes|]|es]|];
      try (exists []; rewrite !app_nil_r; by repeat split).
    destruct (bool_decide _).
    - destruct (IH st0) as (new & Hups & Hcon & Hall).
      exists new. repeat split; try done. by apply Hweaken.
    - destruct (IH (upserted config f bytes st0))
        as (new & Hups & Hcon & Hall).
      exists (item_of config f bytes :: new).
      rewrite Hups, Hcon. cbn [upserts console upserted].
      rewrite <- !app_assoc. repeat split; try done.
      constructor; [|by apply Hweaken].
      exists f. split; [by left|done]. }
  destruct (Hgen files (started st)) as (new & Hups & Hcon & Hall).
  exists new. cbn [started upserts console] in Hups, Hcon.
  rewrite Hups, Hcon, <- app_assoc. done.
Qed.

(** X22. Within one configuration the key handed to [stringToUuid] tells
    relative paths apart: two relative paths get the same key only when
    they are the same path. So two files of one mirror can only share an
    identifier through [stringToUuid] itself. *)
Theorem knowledgeKey_tells_paths_apart (p q : string) :
  knowledgeKey config p = knowledgeKey config q → p = q.
Proof.
  unfold knowledgeKey. intros Heq.
  repeat apply String.app_inj in Heq. exact Heq.
Qed.

End ScanOutput.

(** ** The further properties at work on the example data *)

(** X1: owner and token are missing and the branch is empty. *)
Lemma validateGithubConfig_reports_every_unfilled_setting_witness :
  ∃ e,
    Environment.validateGithubConfig Observed.half_filled = Rejected e
    ∧ Environment.issue_path <$> Environment.validation_issues e
      = ["GITHUB_OWNER"; "GITHUB_BRANCH"; "GITHUB_API_TOKEN"].
Proof.
  pose (e := {| Environment.validation_issues :=
    [ {| Environment.issue_path := "GITHUB_OWNER";
         Environment.issue_what := Environment.invalid_type |};
      {| Environment.issue_path := "GITHUB_BRANCH";
         Environment.issue_what :=
           Environment.too_small "GitHub branch is required" |};
      {| Environment.issue_path := "GITHUB_API_TOKEN";
         Environment.issue_what := Environment.invalid_type |} ] |}).
  assert (Hrej : Environment.validateGithubConfig Observed.half_filled
                 = Rejected e) by reflexivity.
  exists e. split; [exact Hrej|].
  destruct (validateGithubConfig_reports_every_unfilled_setting
              Observed.half_filled e Hrej) as [Hissues _].
  rewrite Hissues. reflexivity.
Defined.

(** X2: two refusals, then an acceptance. *)
Lemma cloneRepository_stops_at_first_acceptance_witness :
  Mirror.events
    (Mirror.cloneRepository "/srv" Mirror.acme Mirror.refusing_twice
       Mirror.blank_disk).2
  = Observed.refusals "/srv" Mirror.acme 2
      ++ Observed.acceptance "/srv" Mirror.acme.
Proof.
  rewrite (cloneRepository_stops_at_first_acceptance "/srv" Mirror.acme
             Mirror.refusing_twice Mirror.blank_disk 2).
  - reflexivity.
  - lia.
  - intros [|[|j]] Hj; [reflexivity|reflexivity|lia].
  - reflexivity.
Defined.

(** X3: a first start on a blank disk, then a second one. *)
Lemma initialize_again_pulls_witness :
  let ready := Mirror.initialize "/srv" Mirror.acme Observed.welcoming
                 Mirror.blank_disk in
  let again := Mirror.initialize "/srv" Mirror.acme Observed.welcoming
                 ready.2 in
  ready.1 = Fulfilled ()
  ∧ Mirror.clone_attempts again.2 = 1%nat
  ∧ Mirror.pulls again.2 = 1%nat.
Proof.
  intros ready again.
  destruct (initialize_again_pulls "/srv" Mirror.acme Observed.welcoming
              Mirror.blank_disk eq_refl) as (_ & Hclones & Hpulls).
  split; [reflexivity|]. split; [exact Hclones|exact Hpulls].
Defined.

(** X4: a blank disk on which the directory cannot be created. *)
Lemma initialize_stops_when_mkdir_fails_witness :
  Mirror.initialize "/srv" Mirror.acme Observed.no_mkdir Mirror.blank_disk
  = (Rejected (Mirror.MkdirFailed "/srv/.repos/acme"),
     {| Mirror.on_disk := Mirror.NoOwnerDir;
        Mirror.events := [Mirror.Mkdir "/srv/.repos/acme"] |}).
Proof.
  exact (initialize_stops_when_mkdir_fails "/srv" Mirror.acme
           Observed.no_mkdir Mirror.blank_disk eq_refl eq_refl).
Defined.

(** X5: the branch [main] is checked out once. *)
Lemma initialize_checks_out_the_configured_branch_witness :
  Observed.checkouts
    (Mirror.initialize "/srv" Mirror.acme Observed.welcoming
       Mirror.blank_disk).2
  = [Mirror.Checkout "/srv/.repos/acme/docs" "main"].
Proof.
  destruct (initialize_checks_out_the_configured_branch "/srv" Mirror.acme
              Observed.welcoming Mirror.blank_disk) as (_ & _ & Hdone).
  destruct Hdone as [Hout _]; [reflexivity|discriminate|].
  exact Hout.
Defined.

(** X6: the path filter [manuals] does not exist in the mirror kept at
    [/srv/.repos/acme/docs]. *)
Lemma scan_of_a_missing_directory_is_empty_witness :
  let H := Knowledge.map_host in
  Tree.plain (Mirror.repoPath "/srv" Observed.acme_elsewhere) = true
  ∧ Tree.plain (Mirror.path Observed.acme_elsewhere) = true
  ∧ Knowledge.scan_root Observed.acme_elsewhere = ["manuals"]
  ∧ Knowledge.scanned_files Observed.acme_elsewhere
      Knowledge.mirror_after_update = []
  ∧ (Knowledge.createMemoriesFromFiles Observed.acme_elsewhere
       Knowledge.mirror_after_update
       (Knowledge.fresh Knowledge.store_before_update)).1
    = Fulfilled ().
Proof.
  intros H.
  destruct (scan_of_a_missing_directory_is_empty (H := Knowledge.map_host)
              Observed.acme_elsewhere Knowledge.mirror_after_update "/srv"
              (Knowledge.fresh Knowledge.store_before_update))
    as [Hnone Hrun].
  - reflexivity.
  - reflexivity.
  - apply (bool_decide_unpack _). by vm_compute.
  - intros es Hes. discriminate Hes.
  - split; [reflexivity|]. split; [reflexivity|]. split; [reflexivity|].
    split; [exact Hnone|]. by rewrite Hrun.
Defined.

(** X7: the loop over the mirror with an unreadable file stops at
    [guides/a.md]; the loop over the updated mirror fulfils. *)
Lemma scan_outcome_tells_what_was_read_witness :
  let H := Knowledge.map_host in
  let a := ["guides"; "a.md"] in
  let b := ["guides"; "b.md"] in
  (Knowledge.process_files Knowledge.acme_docs
     Knowledge.mirror_with_unreadable [b; a; b] (Knowledge.fresh ∅)).1
  = Rejected (Knowledge.ReadFailed a)
  ∧ (∃ pre post,
       [b; a; b] = (pre ++ a :: post)%list
       ∧ Forall (Knowledge.readable Knowledge.mirror_with_unreadable) pre
       ∧ ¬ Knowledge.readable Knowledge.mirror_with_unreadable a)
  ∧ Forall (Knowledge.readable Knowledge.mirror_after_update)
      (Knowledge.scanned_files Knowledge.acme_docs
         Knowledge.mirror_after_update).
Proof.
  intros H a b.
  destruct (scan_outcome_tells_what_was_read (H := Knowledge.map_host)
              Knowledge.acme_docs Knowledge.mirror_with_unreadable
              [b; a; b] (Knowledge.fresh ∅)) as [_ Hstop].
  destruct (scan_outcome_tells_what_was_read (H := Knowledge.map_host)
              Knowledge.acme_docs Knowledge.mirror_after_update
              (Knowledge.scanned_files Knowledge.acme_docs
                 Knowledge.mirror_after_update)
              (Knowledge.fresh ∅)) as [Hread _].
  split; [reflexivity|]. split; [exact (Hstop a eq_refl)|].
  exact (Hread eq_refl).
Defined.

(** X8: [guides/b.md] is gone from the mirror with dot files; its record
    is still there after the scan. *)
Lemma scan_never_removes_a_record_witness :
  let H := Knowledge.map_host in
  (["guides"; "b.md"] ∉ Knowledge.scanned_files Knowledge.acme_docs
                          Knowledge.mirror_with_dotfiles)
  ∧ is_Some (Knowledge.getMemoryById
               (Knowledge.store
                  (Knowledge.createMemoriesFromFiles Knowledge.acme_docs
                     Knowledge.mirror_with_dotfiles
                     (Knowledge.fresh Knowledge.store_before_update)).2)
               "github-acme-docs-guides/b.md").
Proof.
  intros H. split.
  - apply (bool_decide_unpack _). by vm_compute.
  - apply (scan_never_removes_a_record (H := Knowledge.map_host)
             (HS := map_host_keyed) Knowledge.acme_docs
             Knowledge.mirror_with_dotfiles
             (Knowledge.fresh Knowledge.store_before_update)).
    by eexists.
Defined.

(** X9: the record of the changed [guides/a.md]. *)
Lemma scan_stores_the_record_of_each_stale_file_witness :
  let H := Knowledge.map_host in
  let run :=
    Knowledge.createMemoriesFromFiles Knowledge.acme_docs
      Knowledge.mirror_after_update
      (Knowledge.fresh Knowledge.store_before_update) in
  Knowledge.source
    <$> (Knowledge.content
           <$> Knowledge.getMemoryById (Knowledge.store run.2)
                 "github-acme-docs-guides/a.md")
  = Some "github".
Proof.
  intros H run.
  destruct (scan_stores_the_record_of_each_stale_file
              (H := Knowledge.map_host) (HS := map_host_keyed)
              Knowledge.acme_docs Knowledge.mirror_after_update
              Knowledge.store_before_update)
    with (f := ["guides"; "a.md"]) as (bytes & _ & Hget).
  - repeat constructor; by eexists.
  - apply (bool_decide_unpack _). by vm_compute.
  - apply (bool_decide_unpack _). by vm_compute.
  - by vm_compute.
  - subst run. change (Knowledge.file_id Knowledge.acme_docs ["guides"; "a.md"])
      with "github-acme-docs-guides/a.md" in Hget.
    by rewrite Hget.
Defined.

(** X10: the updated mirror, listed forwards and backwards. *)
Lemma scan_result_does_not_depend_on_the_listing_order_witness :
  let H := Knowledge.map_host in
  let files :=
    Knowledge.scanned_files Knowledge.acme_docs Knowledge.mirror_after_update in
  let st := Knowledge.fresh Knowledge.store_before_update in
  let k := "github-acme-docs-guides/c.md" in
  Knowledge.getMemoryById
    (Knowledge.store
       (Knowledge.process_files Knowledge.acme_docs
          Knowledge.mirror_after_update (reverse files) st).2) k
  = Knowledge.getMemoryById
      (Knowledge.store
         (Knowledge.process_files Knowledge.acme_docs
            Knowledge.mirror_after_update files st).2) k.
Proof.
  intros H files st k.
  destruct (scan_result_does_not_depend_on_the_listing_order
              (H := Knowledge.map_host) (HS := map_host_keyed)
              Knowledge.acme_docs Knowledge.mirror_after_update
              files (reverse files) st) as (_ & Hsame & _).
  - symmetry. apply reverse_Permutation.
  - repeat constructor; by eexists.
  - apply (bool_decide_unpack _). by vm_compute.
  - exact (Hsame k).
Defined.

(** X11: one commit on [main], pushed once; and a call whose edit puts
    the working tree back to the newest commit, which fulfils without a
    commit. *)
Lemma createCommit_commits_once_or_not_at_all_witness :
  let done := WriteBack.createCommit WriteBack.obliging "Update docs"
                WriteBack.one_edit WriteBack.dirty_mirror in
  let idle := WriteBack.createCommit WriteBack.obliging "Nothing new"
                Observed.restoring_edit WriteBack.dirty_mirror in
  done.1 = Fulfilled ()
  ∧ WriteBack.message <$> WriteBack.history done.2 = ["Update docs"; "init"]
  ∧ length (WriteBack.sent done.2) = 1%nat
  ∧ idle.1 = Fulfilled ()
  ∧ WriteBack.branches idle.2 = WriteBack.branches WriteBack.dirty_mirror
  ∧ length (WriteBack.sent idle.2) = 1%nat.
Proof.
  intros done idle.
  destruct (createCommit_commits_once_or_not_at_all
              WriteBack.obliging "Update docs" WriteBack.one_edit
              WriteBack.dirty_mirror eq_refl)
    as (_ & _ & _ & Hsent & _ & Hnew).
  destruct (createCommit_commits_once_or_not_at_all
              WriteBack.obliging "Nothing new" Observed.restoring_edit
              WriteBack.dirty_mirror eq_refl)
    as (_ & _ & _ & Hsent' & Hsame & _).
  fold done in Hsent, Hnew. fold idle in Hsent', Hsame.
  destruct Hnew as [Hhist _].
  { intros Heq. apply (f_equal (lookup "notes.txt")) in Heq.
    vm_compute in Heq. discriminate Heq. }
  split; [reflexivity|]. split; [by rewrite Hhist|].
  split; [by rewrite Hsent|]. split; [reflexivity|].
  split; [apply Hsame; by vm_compute|]. by rewrite Hsent'.
Defined.

(** X12: a push that is refused leaves the edit written and the commit
    on the local branch; a write that is refused leaves the edit before
    it written. *)
Lemma createCommit_leaves_its_writes_when_it_fails_witness :
  let done := WriteBack.createCommit Observed.push_refusing "Update docs"
                WriteBack.one_edit WriteBack.dirty_mirror in
  let stuck := WriteBack.createCommit WriteBack.obliging "Update docs"
                 Observed.two_edits_one_path Observed.locked_mirror in
  done.1 = Rejected (WriteBack.GitFailed "push")
  ∧ WriteBack.worktree done.2 !! "guides/a.md" = Some "new text"
  ∧ WriteBack.committed done.2 !! "guides/a.md" = Some "new text"
  ∧ WriteBack.sent done.2 = []
  ∧ stuck.1 = Rejected (WriteBack.WriteFailed "guides/b.md")
  ∧ WriteBack.worktree stuck.2 !! "guides/a.md" = Some "first"
  ∧ WriteBack.branches stuck.2 = WriteBack.branches Observed.locked_mirror
  ∧ WriteBack.sent stuck.2 = [].
Proof.
  intros done stuck.
  destruct (createCommit_leaves_its_writes_when_it_fails
              Observed.push_refusing "Update docs" WriteBack.one_edit
              WriteBack.dirty_mirror (WriteBack.GitFailed "push") eq_refl)
    as (Hsent & _ & _ & Hpush).
  destruct (Hpush eq_refl) as (Hwritten & _ & Hcom & _).
  destruct (createCommit_leaves_its_writes_when_it_fails
              WriteBack.obliging "Update docs" Observed.two_edits_one_path
              Observed.locked_mirror (WriteBack.WriteFailed "guides/b.md")
              eq_refl)
    as (Hsent' & Hwrite & _).
  destruct (Hwrite _ eq_refl) as (k & file & Hk & Hpath & Hwt & _ & Hbr).
  fold done in Hsent, Hwritten, Hcom. fold stuck in Hsent', Hwt, Hbr.
  assert (Hk1 : k = 1%nat).
  { destruct k as [|[|[|k]]]; cbn in Hk; try done;
      injection Hk as <-; cbn in Hpath; discriminate Hpath. }
  subst k.
  split; [reflexivity|]. split; [by rewrite Hwritten|].
  split; [by rewrite Hcom|]. split; [exact Hsent|].
  split; [reflexivity|]. split; [by rewrite Hwt|].
  split; [exact Hbr|exact Hsent'].
Defined.


(** X14: the branch [main] exists already. *)
Lemma createPullRequest_rejects_a_taken_branch_witness :
  WriteBack.createPullRequest Mirror.acme WriteBack.obliging "Update docs"
    "main" WriteBack.one_edit None WriteBack.dirty_mirror
  = (Rejected (WriteBack.GitFailed "checkout"), WriteBack.dirty_mirror).
Proof.
  apply createPullRequest_rejects_a_taken_branch. by eexists.
Defined.


(** X16: no description is given, so the body is the title; the branch
    carries the new commit on top of the one of [main]. *)
Lemma createPullRequest_pushes_then_requests_witness :
  let done :=
    WriteBack.createPullRequest Mirror.acme WriteBack.obliging "Update docs"
      "auto/update-1" WriteBack.one_edit None WriteBack.dirty_mirror in
  length (WriteBack.sent done.2) = 2%nat
  ∧ last (WriteBack.sent done.2)
    = Some (WriteBack.PullRequested
              {| WriteBack.pr_owner := "acme"; WriteBack.pr_repo := "docs";
                 WriteBack.pr_title := "Update docs";
                 WriteBack.pr_body := "Update docs";
                 WriteBack.pr_head := "auto/update-1";
                 WriteBack.pr_base := "main" |})
  ∧ WriteBack.message <$> WriteBack.history done.2
    = ["Update docs"; "init"].
Proof.
  intros done.
  destruct (createPullRequest_pushes_then_requests Mirror.acme
              WriteBack.obliging "Update docs" "auto/update-1"
              WriteBack.one_edit None WriteBack.dirty_mirror _ eq_refl)
    as (Hsent & _ & _ & _ & Hnew).
  fold done in Hsent, Hnew.
  destruct Hnew as [Hhist _].
  { intros Heq. apply (f_equal (lookup "notes.txt")) in Heq.
    vm_compute in Heq. discriminate Heq. }
  rewrite Hsent, Hhist. repeat split; reflexivity.
Defined.

(** X17: a pull request, then a direct commit, with a remote that accepts
    every push: the commit is made on the pull request's branch and its
    push is refused. *)
Lemma createCommit_after_createPullRequest_is_not_pushed_witness :
  let first :=
    WriteBack.createPullRequest Mirror.acme WriteBack.obliging "Update docs"
      "auto/update-1" WriteBack.one_edit None WriteBack.dirty_mirror in
  let second :=
    WriteBack.createCommit WriteBack.obliging "Fix typo"
      Observed.two_edits_one_path first.2 in
  (∃ pr, first.1 = Fulfilled pr)
  ∧ second.1 = Rejected (WriteBack.GitFailed "push")
  ∧ WriteBack.current second.2 = "auto/update-1"
  ∧ WriteBack.sent second.2 = WriteBack.sent first.2
  ∧ WriteBack.committed second.2 !! "guides/a.md" = Some "second"
  ∧ WriteBack.branches second.2 !! "main" = Some [WriteBack.first_commit].
Proof.
  intros first second.
  destruct (createCommit_after_createPullRequest_is_not_pushed
              Mirror.acme WriteBack.obliging "Update docs" "auto/update-1"
              "Fix typo" WriteBack.one_edit Observed.two_edits_one_path None
              WriteBack.dirty_mirror _ eq_refl)
    as (_ & Hsent & Hcur & Hmain & Hpush).
  fold first in Hsent, Hcur, Hmain, Hpush.
  fold second in Hsent, Hcur, Hmain, Hpush.
  destruct (Hpush eq_refl) as (_ & Hcom & _).
  split; [by eexists|]. split; [reflexivity|]. split; [exact Hcur|].
  split; [exact Hsent|]. split; [by rewrite Hcom|].
  etransitivity; [apply Hmain; discriminate|reflexivity].
Defined.

(** X18: settings with the owner and the token missing. *)
Lemma start_rejects_unfilled_settings_untouched_witness :
  let H := Knowledge.map_host in
  ∃ e,
    Plugin.start "/srv" Observed.half_filled Observed.welcoming
      Knowledge.mirror_after_update (Plugin.boot ∅)
    = (Rejected (Plugin.InvalidConfig e), Plugin.boot ∅).
Proof.
  intros H.
  apply (start_rejects_unfilled_settings_untouched (H := Knowledge.map_host)).
  intros (Howner & _). destruct Howner as (o & Ho & _). discriminate Ho.
Defined.

(** X19: valid settings on a disk where the directory cannot be created. *)
Lemma start_skips_the_scan_when_initialize_fails_witness :
  let H := Knowledge.map_host in
  let done := Plugin.start "/srv" Observed.all_filled Observed.no_mkdir
                Knowledge.mirror_after_update (Plugin.boot ∅) in
  done.1 = Rejected (Plugin.MirrorError
                       (Mirror.MkdirFailed "/srv/.repos/acme"))
  ∧ Plugin.memories done.2 = Knowledge.fresh ∅.
Proof.
  intros H done. subst done.
  rewrite (start_skips_the_scan_when_initialize_fails
             (H := Knowledge.map_host) "/srv" Observed.all_filled
             Observed.no_mkdir Knowledge.mirror_after_update (Plugin.boot ∅)
             (Mirror.MkdirFailed "/srv/.repos/acme")).
  - split; reflexivity.
  - repeat split; eexists; (split; [reflexivity|discriminate]).
  - reflexivity.
Defined.


(** X21: the scan of the updated documentation mirror prints three lines. *)
Lemma scan_announces_each_record_it_sets_witness :
  let H := Knowledge.map_host in
  Knowledge.console
    (Knowledge.createMemoriesFromFiles Knowledge.acme_docs
       Knowledge.mirror_after_update
       (Knowledge.fresh Knowledge.store_before_update)).2
  = [["Create memories"];
     ["Processing knowledge for "; "agent"; " - "; "guides/a.md"];
     ["Processing knowledge for "; "agent"; " - "; "guides/c.md"]].
Proof.
  intros H.
  destruct (scan_announces_each_record_it_sets (H := Knowledge.map_host)
              Knowledge.acme_docs Knowledge.mirror_after_update
              (Knowledge.fresh Knowledge.store_before_update))
    as (new & Hups & Hcon & _).
  cbn [Knowledge.fresh Knowledge.upserts app] in Hups.
  rewrite Hcon, <- Hups. reflexivity.
Defined.

(** X22: two paths of the documentation mirror. *)
Lemma knowledgeKey_tells_paths_apart_witness :
  Knowledge.knowledgeKey Knowledge.acme_docs "guides/a.md"
  = Knowledge.knowledgeKey Knowledge.acme_docs ("guides/" +:+ "a.md")
  ∧ "guides/a.md" = "guides/" +:+ "a.md"
  ∧ Knowledge.knowledgeKey Knowledge.acme_docs "guides/a.md"
    ≠ Knowledge.knowledgeKey Knowledge.acme_docs "guides/b.md".
Proof.
  split; [reflexivity|]. split.
  - exact (knowledgeKey_tells_paths_apart Knowledge.acme_docs
             "guides/a.md" ("guides/" +:+ "a.md") eq_refl).
  - intros Heq. apply knowledgeKey_tells_paths_apart in Heq.
    discriminate Heq.
Defined.
